(** * drand-pulse-conduit: the off-chain worker [ocw.py]

    A shallow embedding of the pulse acquisition and submission pipeline of
    [src/ocw.py], and the properties its specification states about it.

    Python integers are unbounded: they are [Z], with [<<], [|] and [&] as
    [Z.shiftl], [Z.lor] and [Z.land].  A [bytes] object is a [list byte].
    A raised exception is the [Err] of a [result]; code that talks to the
    beacon or to the chain threads a [World] through a small state and
    exception monad. *)

From Stdlib Require Import ZArith List Lia Bool String Ascii.
From Stdlib Require Import Strings.Byte Numbers.DecimalString.
From Stdlib Require Import Numbers.DecimalPos Numbers.DecimalZ.
Import ListNotations.

Local Open Scope string_scope.
Local Open Scope list_scope.
Local Open Scope Z_scope.
Local Set Warnings "-register-all".

(** ** Exceptions and results *)

(** The exception classes the code can raise.  The code defines no class of
    its own: it raises the built-in [Exception] with a message, and the
    built-ins it calls raise theirs. *)
Inductive exn : Type :=
| Exception (msg : string)
| OverflowError
| KeyError (key : string)
| TypeError
| AttributeError
| ValueError
| binascii_Error (msg : string).

Inductive result (A : Type) : Type :=
| Ok (a : A)
| Err (e : exn).
Arguments Ok {A} a.
Arguments Err {A} e.

Definition raises {A} (r : result A) : Prop :=
  exists e, r = Err e.

Definition rbind {A B} (r : result A) (k : A -> result B) : result B :=
  match r with
  | Ok a => k a
  | Err e => Err e
  end.

Declare Scope result_scope.
Delimit Scope result_scope with result.
Notation "'let?' x ':=' r 'in' k" := (rbind r (fun x => k))
  (at level 10, x pattern, r at level 100, k at level 200) : result_scope.
Local Open Scope result_scope.

(** ** Bytes *)

Definition bytes := list byte.

Definition byte_of_Z (z : Z) : byte :=
  match Byte.of_N (Z.to_N (z mod 256)) with
  | Some b => b
  | None => x00
  end.

Definition Z_of_byte (b : byte) : Z := Z.of_N (Byte.to_N b).

(** [len(b)] *)
Definition len {A} (l : list A) : Z := Z.of_nat (List.length l).

(** The [n] low-order bytes of [v], least significant first. *)
Fixpoint le_bytes (n : nat) (v : Z) : bytes :=
  match n with
  | O => []
  | S k => byte_of_Z v :: le_bytes k (Z.shiftr v 8)
  end.

(** [v.to_bytes(n, 'little')] on a Python int: unsigned, so a negative [v]
    and a [v] that does not fit in [n] bytes both raise [OverflowError]. *)
Definition to_bytes (v : Z) (n : nat) : result bytes :=
  if v <? 0 then Err OverflowError
  else if 2 ^ (8 * Z.of_nat n) <=? v then Err OverflowError
  else Ok (le_bytes n v).

(** ** [encode_compact_u32] (lines 53-64) *)

Definition encode_compact_u32 (value : Z) : result bytes :=
  if value <? 64 then
    to_bytes (Z.land (Z.shiftl value 2) 255) 1
  else if value <? 16384 then
    let val := Z.lor (Z.shiftl value 2) 1 in
    to_bytes val 2
  else if value <? 1073741824 then
    let val := Z.lor (Z.shiftl value 2) 2 in
    to_bytes val 4
  else
    let val := Z.lor (Z.shiftl value 2) 3 in
    to_bytes val 5.

(** ** Beacon responses and pulses *)

(** What [response.json()] hands to the pipeline.  [JObj] lists the items
    of a dict, each key once; a string holds the characters of a [str], the
    codes from 128 on standing for the characters that are not ASCII.  JSON
    numbers with a fraction or an exponent (Python floats) are outside this
    model. *)
Inductive json : Type :=
| JNull
| JBool (b : bool)
| JInt (z : Z)
| JStr (s : string)
| JArr (elems : list json)
| JObj (items : list (string * json)).

(** The dict [try_into_pulse] returns.  [round] holds whatever value the
    response carried under that key. *)
Record Pulse : Type := mkPulse {
  round : json;
  randomness : bytes;
  signature : bytes
}.

Record PulsesPayload : Type := mkPayload {
  block_number : Z;
  pulses : list Pulse;
  public : bytes
}.

(** [x.to_bytes(n, 'little')] on a value out of a response: Python's [bool]
    is a subclass of [int]; the other JSON values have no such method. *)
Definition py_to_bytes (x : json) (n : nat) : result bytes :=
  match x with
  | JInt z => to_bytes z n
  | JBool b => to_bytes (Z.b2z b) n
  | _ => Err AttributeError
  end.

(** ** [encode_pulse] (lines 66-72) *)

Definition encode_pulse (pulse : Pulse) : result bytes :=
  let? encoded := py_to_bytes (round pulse) 8 in
  let? c := encode_compact_u32 (len (randomness pulse)) in
  let encoded := encoded ++ c in
  let encoded := encoded ++ randomness pulse in
  let? c := encode_compact_u32 (len (signature pulse)) in
  let encoded := encoded ++ c in
  let encoded := encoded ++ signature pulse in
  Ok encoded.

(** ** [encode_pulses_payload] (lines 74-90) *)

(** The [for p in pulses_list] loop of lines 79-84, on the accumulator
    [encoded]. *)
Fixpoint encode_pulses_loop (encoded : bytes) (pulses_list : list Pulse)
  : result bytes :=
  match pulses_list with
  | [] => Ok encoded
  | p :: rest =>
      let? r := py_to_bytes (round p) 8 in
      let encoded := encoded ++ r in
      let? c := encode_compact_u32 (len (randomness p)) in
      let encoded := encoded ++ c in
      let encoded := encoded ++ randomness p in
      let? c := encode_compact_u32 (len (signature p)) in
      let encoded := encoded ++ c in
      let encoded := encoded ++ signature p in
      encode_pulses_loop encoded rest
  end.

Definition encode_pulses_payload (pulses_payload : PulsesPayload)
  : result bytes :=
  let? encoded := to_bytes (block_number pulses_payload) 4 in
  let pulses_list := pulses pulses_payload in
  let? c := encode_compact_u32 (len pulses_list) in
  let encoded := encoded ++ c in
  let? encoded := encode_pulses_loop encoded pulses_list in
  let encoded := encoded ++ [x01] in
  let encoded := encoded ++ public pulses_payload in
  Ok encoded.

(** ** [binascii.unhexlify] and [bytes.hex] *)

Definition hex_value (c : ascii) : option Z :=
  let n := Z.of_N (N_of_ascii c) in
  if (48 <=? n) && (n <=? 57) then Some (n - 48)
  else if (97 <=? n) && (n <=? 102) then Some (n - 87)
  else if (65 <=? n) && (n <=? 70) then Some (n - 55)
  else None.

Definition is_ascii (c : ascii) : bool := Z.of_N (N_of_ascii c) <? 128.

Fixpoint string_forallb (f : ascii -> bool) (s : string) : bool :=
  match s with
  | EmptyString => true
  | String c rest => f c && string_forallb f rest
  end.

Fixpoint unhex_pairs (s : string) : result bytes :=
  match s with
  | String hi (String lo rest) =>
      match hex_value hi, hex_value lo with
      | Some h, Some l =>
          let? tail := unhex_pairs rest in
          Ok (byte_of_Z (16 * h + l) :: tail)
      | _, _ => Err (binascii_Error "Non-hexadecimal digit found")
      end
  | _ => Ok []
  end.

(** [binascii.unhexlify] on a [str]: the text must be ASCII, of even
    length, and made of hexadecimal digits of either case. *)
Definition unhexlify_str (s : string) : result bytes :=
  if negb (string_forallb is_ascii s) then Err ValueError
  else if Nat.odd (String.length s) then Err (binascii_Error "Odd-length string")
  else unhex_pairs s.

(** [binascii.unhexlify] on a value out of a response: only a string is
    accepted. *)
Definition unhexlify (x : json) : result bytes :=
  match x with
  | JStr s => unhexlify_str s
  | _ => Err TypeError
  end.

Definition hex_digit (n : Z) : ascii :=
  ascii_of_N (Z.to_N (if n <? 10 then 48 + n else 87 + n)).

(** [b.hex()] *)
Fixpoint hex (b : bytes) : string :=
  match b with
  | [] => EmptyString
  | x :: rest =>
      String (hex_digit (Z_of_byte x / 16))
        (String (hex_digit (Z_of_byte x mod 16)) (hex rest))
  end.

(** ** [try_into_pulse] (lines 40-51) *)

Fixpoint dict_get (items : list (string * json)) (key : string) : option json :=
  match items with
  | [] => None
  | (k, v) :: rest => if String.eqb k key then Some v else dict_get rest key
  end.

(** [d[key]] with a string key: a [KeyError] on a dict without the key, a
    [TypeError] on anything that is not a dict. *)
Definition py_getitem (d : json) (key : string) : result json :=
  match d with
  | JObj items =>
      match dict_get items key with
      | Some v => Ok v
      | None => Err (KeyError key)
      end
  | _ => Err TypeError
  end.

Definition try_into_pulse (drand_resp : json) : result Pulse :=
  let? round_num := py_getitem drand_resp "round" in
  let? randomness := (let? x := py_getitem drand_resp "randomness" in unhexlify x) in
  let? signature := (let? x := py_getitem drand_resp "signature" in unhexlify x) in
  if negb (len randomness =? 32) then
    Err (Exception "Randomness is not 32 bytes")
  else
    Ok {| round := round_num; randomness := randomness; signature := signature |}.

(** ** The world outside the process *)

(** What [requests.get] gives back: a [requests.exceptions.RequestException]
    (connection failure, timeout, ...) or a response.  The body is given as
    [response.json()] returns it. *)
Inductive reply : Type :=
| RequestException
| Response (status_code : Z) (body : json).

(** The two storage values of the [Drand] pallet the worker reads; [None]
    is a storage query whose [.value] is [None]. *)
Record ChainState : Type := mkChain {
  NextUnsignedAt : option Z;
  LastStoredRound : option Z
}.

(** The [call_params] of the [write_pulse] call (lines 138-165). *)
Record PulseForCall : Type := mkPulseForCall {
  call_round : json;
  call_randomness : string;
  call_signature : string
}.

Record Call : Type := mkCall {
  payload_block_number : Z;
  payload_pulses : list PulseForCall;
  payload_public_Sr25519 : string;
  signature_Sr25519 : string
}.

Record Receipt : Type := mkReceipt {
  is_success : bool;
  error_message : string
}.

(** The state the worker observes and acts on: the clock [time.time()]
    reads, in milliseconds; the GET requests sent so far, each as the pair
    (endpoint, relative path) its URI was built from; the chain storage; the
    extrinsics submitted so far; and the lines printed. *)
Record World : Type := mkWorld {
  clock : Z;
  gets : list (string * string);
  chain : ChainState;
  extrinsics : list Call;
  stdout : list string
}.

(** The collaborators of the worker.  [requests_get w uri] is the reply
    to a GET of [uri] sent in world [w] and the time it takes;
    [node_submit c w] is the storage after the node has processed the
    extrinsic [c], and the receipt. *)
Record Env : Type := mkEnv {
  requests_get : World -> string -> reply * Z;
  keypair_public_key : bytes;
  keypair_sign : World -> bytes -> bytes;
  node_submit : Call -> World -> ChainState * Receipt
}.

(** Computations that read and change the world and may raise.  What was
    done before an exception stays done. *)
Definition M (A : Type) : Type := World -> result A * World.

Definition ret {A} (a : A) : M A := fun w => (Ok a, w).

Definition raise {A} (e : exn) : M A := fun w => (Err e, w).

Definition bind {A B} (c : M A) (k : A -> M B) : M B :=
  fun w =>
    match c w with
    | (Ok a, w1) => k a w1
    | (Err e, w1) => (Err e, w1)
    end.

Definition lift {A} (r : result A) : M A := fun w => (r, w).

Declare Scope world_scope.
Delimit Scope world_scope with world.
Notation "x <- c ;; k" := (bind c (fun x => k))
  (at level 61, c at next level, right associativity) : world_scope.
Notation "c ;;; k" := (bind c (fun _ => k))
  (at level 61, right associativity) : world_scope.
Local Open Scope world_scope.

Definition print (line : string) : M unit :=
  fun w => (Ok tt, mkWorld (clock w) (gets w) (chain w) (extrinsics w)
                           (stdout w ++ [line])).

(** [str(n)] for an int. *)
Definition str (n : Z) : string := NilZero.string_of_int (Z.to_int n).

(** ** Constants (lines 6-16) *)

Definition CHAIN_HASH : string :=
  "52db9ba70e0cc0f6eaf7803dd07447a1f5477735fd3f661792ba94600c84e971".

Definition DRAND_ENDPOINTS : list string :=
  [ "https://api.drand.sh";
    "https://api2.drand.sh";
    "https://api3.drand.sh";
    "https://drand.cloudflare.com";
    "https://api.drand.secureweb3.com:6875" ].

Definition HTTP_FETCH_TIMEOUT : Z := 10000.

Definition MAX_PULSES_TO_FETCH : Z := 50.

Section Worker.

Variable env : Env.

(** ** [fetch_from_any_endpoint] (lines 26-38) *)

(** [requests.get(uri, timeout=...)] for the URI [endpoint + relative_path]:
    the request is recorded and the clock moves on by the time it took. *)
Definition http_get (endpoint relative_path : string) : M reply :=
  fun w =>
    let uri := (endpoint ++ relative_path)%string in
    let (r, elapsed) := requests_get env w uri in
    (Ok r, mkWorld (clock w + elapsed) (gets w ++ [(endpoint, relative_path)])
                   (chain w) (extrinsics w) (stdout w)).

(** [time.time()], in milliseconds. *)
Definition time_time : M Z := fun w => (Ok (clock w), w).

(** Lines 31-35: the body the [try] block returns, if it returns: that of
    a response with status 200.  A [RequestException] is caught and
    dropped. *)
Definition ok_body (response : reply) : option json :=
  match response with
  | Response status_code body =>
      if status_code =? 200 then Some body else None
  | RequestException => None
  end.

Definition NoEndpointAvailableError : exn :=
  Exception "No valid response from any Drand endpoint".

(** The [for endpoint in ...] loop of lines 28-37 and the [raise] after
    it, over the endpoints still to try. *)
Fixpoint fetch_loop (deadline : Z) (endpoints : list string)
    (relative_path : string) : M json :=
  match endpoints with
  | [] => raise NoEndpointAvailableError
  | endpoint :: rest =>
      response <- http_get endpoint relative_path ;;
      match ok_body response with
      | Some body => ret body
      | None =>
          now <- time_time ;;
          if deadline <? now
          then raise NoEndpointAvailableError
          else fetch_loop deadline rest relative_path
      end
  end.

(** The function over a list of endpoints; the code runs it on
    [DRAND_ENDPOINTS]. *)
Definition fetch_from (endpoints : list string) (relative_path : string)
  : M json :=
  now <- time_time ;;
  let deadline := now + HTTP_FETCH_TIMEOUT in
  fetch_loop deadline endpoints relative_path.

Definition fetch_from_any_endpoint (relative_path : string) : M json :=
  fetch_from DRAND_ENDPOINTS relative_path.

(** ** [fetch_drand_by_round], [fetch_drand_latest] (lines 18-24) *)

Definition round_path (round_num : Z) : string :=
  ("/" ++ CHAIN_HASH ++ "/public/" ++ str round_num)%string.

Definition latest_path : string :=
  ("/" ++ CHAIN_HASH ++ "/public/latest")%string.

Definition fetch_drand_by_round (round_num : Z) : M json :=
  fetch_from_any_endpoint (round_path round_num).

Definition fetch_drand_latest : M json :=
  fetch_from_any_endpoint latest_path.

(** ** [submit_new_pulses] (lines 95-173) *)

(** [x or 0] on the [.value] of a storage query. *)
Definition value_or_0 (value : option Z) : Z :=
  match value with
  | Some v => if v =? 0 then 0 else v
  | None => 0
  end.

(** [substrate.query(module='Drand', storage_function=...).value or 0] *)
Definition substrate_query (storage_function : ChainState -> option Z) : M Z :=
  fun w => (Ok (value_or_0 (storage_function (chain w))), w).

(** The integer a value out of a response stands for in [-], [<=] and
    [min] against an int; the values Python cannot subtract from or compare
    with an int raise [TypeError]. *)
Definition py_int (x : json) : result Z :=
  match x with
  | JInt z => Ok z
  | JBool b => Ok (Z.b2z b)
  | _ => Err TypeError
  end.

(** [range(start, stop)] *)
Definition py_range (start stop : Z) : list Z :=
  map (fun i => start + Z.of_nat i) (seq 0 (Z.to_nat (stop - start))).

(** The loop of lines 122-124 over the rounds still to fetch, on the list
    [pulses] built so far. *)
Fixpoint fetch_rounds_loop (pulses : list Pulse) (rounds : list Z)
  : M (list Pulse) :=
  match rounds with
  | [] => ret pulses
  | r :: rest =>
      resp <- fetch_drand_by_round r ;;
      p <- lift (try_into_pulse resp) ;;
      fetch_rounds_loop (pulses ++ [p]) rest
  end.

(** The local variables that lines 130-173 use. *)
Record Batch : Type := mkBatch {
  batch_last_stored_round : Z;
  batch_rounds_to_fetch : Z;
  batch_pulses : list Pulse
}.

(** Lines 96-128: [None] when one of the three [return] statements is
    reached, the batch otherwise. *)
Definition collect_new_pulses (current_block : Z) : M (option Batch) :=
  next_unsigned_at <- substrate_query NextUnsignedAt ;;
  if current_block <? next_unsigned_at then ret None
  else
    last_stored_round <- substrate_query LastStoredRound ;;
    latest_resp <- fetch_drand_latest ;;
    latest_pulse <- lift (try_into_pulse latest_resp) ;;
    let current_round := round latest_pulse in
    last_stored_round <-
      (if last_stored_round =? 0
       then c <- lift (py_int current_round) ;; ret (c - 1)
       else ret last_stored_round) ;;
    c <- lift (py_int current_round) ;;
    if c <=? last_stored_round then
      print "No new rounds to fetch." ;;; ret None
    else
      let rounds_to_fetch := Z.min (c - last_stored_round) MAX_PULSES_TO_FETCH in
      pulses <- fetch_rounds_loop []
                  (py_range (last_stored_round + 1)
                            (last_stored_round + 1 + rounds_to_fetch)) ;;
      match pulses with
      | [] => print "No new pulses to submit." ;;; ret None
      | _ :: _ => ret (Some (mkBatch last_stored_round rounds_to_fetch pulses))
      end.

(** The dict of lines 131-135. *)
Definition payload_of (current_block : Z) (pulses : list Pulse) : PulsesPayload :=
  {| block_number := current_block;
     pulses := pulses;
     public := keypair_public_key env |}.

(** [substrate.submit_extrinsic(extrinsic, wait_for_inclusion=True)] for
    the unsigned extrinsic built from [call]. *)
Definition submit_extrinsic (call : Call) : M Receipt :=
  fun w =>
    let (storage, receipt) := node_submit env call w in
    (Ok receipt, mkWorld (clock w) (gets w) storage (extrinsics w ++ [call])
                         (stdout w)).

(** Lines 130-173. *)
Definition sign_and_submit (current_block : Z) (b : Batch) : M unit :=
  let pulses := batch_pulses b in
  let public_bytes := keypair_public_key env in
  encoded_payload <- lift (encode_pulses_payload (payload_of current_block pulses)) ;;
  signature_bytes <- (fun w => (Ok (keypair_sign env w encoded_payload), w)) ;;
  let pulses_for_call :=
    map (fun p => {| call_round := round p;
                     call_randomness := ("0x" ++ hex (randomness p))%string;
                     call_signature := ("0x" ++ hex (signature p))%string |})
        pulses in
  let call :=
    {| payload_block_number := current_block;
       payload_pulses := pulses_for_call;
       payload_public_Sr25519 := ("0x" ++ hex public_bytes)%string;
       signature_Sr25519 := ("0x" ++ hex signature_bytes)%string |} in
  receipt <- submit_extrinsic call ;;
  if is_success receipt then
    print ("Successfully submitted pulses from round "
           ++ str (batch_last_stored_round b + 1) ++ " up to "
           ++ str (batch_last_stored_round b + batch_rounds_to_fetch b))%string
  else
    print ("Failed to submit: " ++ error_message receipt)%string.

Definition submit_new_pulses (current_block : Z) : M unit :=
  collected <- collect_new_pulses current_block ;;
  match collected with
  | None => ret tt
  | Some b => sign_and_submit current_block b
  end.

(** ** [block_subscription_handler] (lines 175-177) *)

(** [header_number] is [obj['header']['number']], the number of the block
    the subscription announces. *)
Definition block_subscription_handler (header_number : Z) : M unit :=
  let current_block := header_number in
  submit_new_pulses current_block.

End Worker.

(** ** The layouts the specification describes *)

(** The table of section 4.1: the width in bytes and the two tag bits of
    each tier. *)
Definition tier_width (value : Z) : nat :=
  if value <? 64 then 1
  else if value <? 16384 then 2
  else if value <? 1073741824 then 4
  else 5.

Definition tier_tag (value : Z) : Z :=
  if value <? 64 then 0
  else if value <? 16384 then 1
  else if value <? 1073741824 then 2
  else 3.

(** [(value << 2) | tag], written little-endian on the width of the tier. *)
Definition compact (value : Z) : bytes :=
  le_bytes (tier_width value) (Z.lor (Z.shiftl value 2) (tier_tag value)).

(** The two low bits of the first byte. *)
Definition tag_bits (b : bytes) : Z :=
  match b with
  | [] => 0
  | x :: _ => Z.land (Z_of_byte x) 3
  end.

(** The bound below which [(value << 2) | 3] still fits in five bytes. *)
Definition COMPACT_LIMIT : Z := 274877906944.

(** The round of a pulse as an integer. *)
Definition round_value (p : Pulse) : Z :=
  match round p with
  | JInt z => z
  | JBool b => Z.b2z b
  | _ => 0
  end.

(** Item 3 of section 4.4, for one pulse. *)
Definition pulse_layout (p : Pulse) : bytes :=
  le_bytes 8 (round_value p)
  ++ compact (len (randomness p)) ++ randomness p
  ++ compact (len (signature p)) ++ signature p.

(** Items 1 to 5 of section 4.4. *)
Definition payload_layout (payload : PulsesPayload) : bytes :=
  le_bytes 4 (block_number payload)
  ++ compact (len (pulses payload))
  ++ flat_map pulse_layout (pulses payload)
  ++ [x01]
  ++ public payload.

(** A round that is an integer of 64 bits. *)
Definition u64_round (p : Pulse) : Prop :=
  exists r, round p = JInt r /\ 0 <= r < 2 ^ 64.

(** Byte fields whose lengths the compact encoder can take. *)
Definition short_fields (p : Pulse) : Prop :=
  len (randomness p) < COMPACT_LIMIT /\ len (signature p) < COMPACT_LIMIT.

(** A pulse the loop of lines 79-84 gets through. *)
Definition encodable_pulse (p : Pulse) : Prop :=
  (exists v, py_int (round p) = Ok v /\ 0 <= v < 2 ^ 64) /\ short_fields p.

(** A payload all of whose rounds are integers. *)
Definition int_rounds (payload : PulsesPayload) : Prop :=
  Forall (fun p => exists r, round p = JInt r) (pulses payload).


(** Section 4.1 of the specification on failure: the encoder raises
    exactly on negative values and returns on all the others. *)
Definition raises_exactly_on_negatives : Prop :=
  forall value : Z,
    (raises (encode_compact_u32 value) <-> value < 0)
    /\ (0 <= value -> exists b, encode_compact_u32 value = Ok b).

(** ** What the specification asks of a response *)

(** The value under [key], when the response is an object that has it. *)
Definition field (resp : json) (key : string) : option json :=
  match resp with
  | JObj items => dict_get items key
  | _ => None
  end.

Definition is_hex_digit (c : ascii) : bool :=
  match hex_value c with
  | Some _ => true
  | None => false
  end.

(** A string of hexadecimal digits, two for each byte. *)
Definition is_hex_string (s : string) : bool :=
  Nat.even (String.length s) && string_forallb is_hex_digit s.

(** The text of a field that is present and is a hex string. *)
Definition hex_text (v : option json) : option string :=
  match v with
  | Some (JStr s) => if is_hex_string s then Some s else None
  | _ => None
  end.

(** A round that is present and is an integer. *)
Definition integer_round (v : option json) : bool :=
  match v with
  | Some (JInt _) => true
  | _ => false
  end.

(** Section 4.2 of the specification on failure: the validator raises
    exactly when a field is absent or malformed, the round included, or the
    randomness is not 32 bytes. *)
Definition rejects_every_malformed_field : Prop :=
  forall resp : json,
    raises (try_into_pulse resp) <->
    (integer_round (field resp "round") = false
     \/ hex_text (field resp "randomness") = None
     \/ hex_text (field resp "signature") = None
     \/ exists s, hex_text (field resp "randomness") = Some s
                  /\ String.length s <> 64%nat).

(** The JSON object a beacon sends for a pulse. *)
Definition beacon_response (r : json) (rand sig : bytes) : json :=
  JObj [ ("round", r);
         ("randomness", JStr (hex rand));
         ("signature", JStr (hex sig)) ].

(** ** Sequential failover, as the specification describes it *)

(** The reply to a GET of [endpoint + path] sent in world [w], and the
    world after it. *)
Definition reply_to (env : Env) (endpoint path : string) (w : World) : reply :=
  fst (requests_get env w (endpoint ++ path)%string).

Definition after_get (env : Env) (endpoint path : string) (w : World) : World :=
  snd (http_get env endpoint path w).

(** The world after one GET to each of [tried], in list order. *)
Fixpoint sent (env : Env) (path : string) (tried : list string) (w : World)
  : World :=
  match tried with
  | [] => w
  | e :: rest => sent env path rest (after_get env e path w)
  end.

(** A transport error or a status other than 200. *)
Definition failed (r : reply) : Prop :=
  match r with
  | RequestException => True
  | Response status_code _ => status_code <> 200
  end.

(** Every endpoint of [tried], asked in order, fails, and the deadline has
    not passed when it has. *)
Fixpoint all_fail_in_time (env : Env) (deadline : Z) (path : string)
    (tried : list string) (w : World) : Prop :=
  match tried with
  | [] => True
  | e :: rest =>
      failed (reply_to env e path w)
      /\ clock (after_get env e path w) <= deadline
      /\ all_fail_in_time env deadline path rest (after_get env e path w)
  end.

(** The three ways a fetch over the endpoints [es] can go: the first
    endpoint to answer 200 wins; or an endpoint fails and the deadline has
    passed; or every endpoint has failed. *)
Inductive failover (env : Env) (deadline : Z) (path : string)
    (es : list string) (w : World) : result json -> World -> Prop :=
| first_success tried e rest body :
    es = tried ++ e :: rest ->
    all_fail_in_time env deadline path tried w ->
    reply_to env e path (sent env path tried w) = Response 200 body ->
    failover env deadline path es w (Ok body) (sent env path (tried ++ [e]) w)
| deadline_elapsed tried e rest :
    es = tried ++ e :: rest ->
    all_fail_in_time env deadline path tried w ->
    failed (reply_to env e path (sent env path tried w)) ->
    deadline < clock (sent env path (tried ++ [e]) w) ->
    failover env deadline path es w (Err NoEndpointAvailableError)
             (sent env path (tried ++ [e]) w)
| list_exhausted :
    all_fail_in_time env deadline path es w ->
    failover env deadline path es w (Err NoEndpointAvailableError)
             (sent env path es w).

(** ** What the specification asks of a cycle *)

(** The bootstrap rule: a stored round of 0 stands for the round before
    the latest one. *)
Definition effective_last_stored_round (last_stored_round latest_round : Z) : Z :=
  if last_stored_round =? 0 then latest_round - 1 else last_stored_round.

(** The relative paths of the fetches behind a log of requests: every
    fetch sends its first request, and no other, to the first endpoint of
    [DRAND_ENDPOINTS]. *)
Definition fetch_calls (log : list (string * string)) : list string :=
  map snd (filter (fun g => String.eqb (fst g) "https://api.drand.sh") log).

(** The rounds from [first] to [last], both included, in ascending order. *)
Definition inclusive_range (first last : Z) : list Z :=
  map (fun i => first + Z.of_nat i) (seq 0 (Z.to_nat (last - first + 1))).

(** The pulses [ps] are, one for one and in order, the validated answers
    to fetches of the rounds [rs], made from world [w] on and ending in
    [w']. *)
Fixpoint answered (env : Env) (rs : list Z) (ps : list Pulse) (w w' : World)
  : Prop :=
  match rs, ps with
  | [], [] => w' = w
  | r :: rs', p :: ps' =>
      exists resp w1,
        fetch_drand_by_round env r w = (Ok resp, w1)
        /\ try_into_pulse resp = Ok p
        /\ answered env rs' ps' w1 w'
  | _, _ => False
  end.



(** The fetch or the validation of round [r], tried in world [w], fails
    with [e] and leaves [w']. *)
Definition round_fails (env : Env) (r : Z) (w : World) (e : exn) (w' : World)
  : Prop :=
  fetch_drand_by_round env r w = (Err e, w')
  \/ exists resp, fetch_drand_by_round env r w = (Ok resp, w')
                  /\ try_into_pulse resp = Err e.

(** ** Sample payloads, responses and beacons *)

(** A payload of two pulses. *)
Definition sample_payload : PulsesPayload :=
  {| block_number := 7;
     pulses := [ {| round := JInt 258; randomness := [x0a; x0b]; signature := [xff] |};
                 {| round := JInt 259; randomness := []; signature := [] |} ];
     public := [xaa; xbb] |}.


(** A payload with one pulse whose signature has [COMPACT_LIMIT] bytes. *)
Definition oversized_payload : PulsesPayload :=
  {| block_number := 0;
     pulses := [ {| round := JInt 0;
                    randomness := [];
                    signature := repeat x00 (Z.to_nat COMPACT_LIMIT) |} ];
     public := [] |}.

(** Thirty-two bytes of randomness. *)
Definition sample_randomness : bytes := repeat xa5 32.

(** A response whose round is a string, not a number. *)
Definition text_round_response : json :=
  beacon_response (JStr "abc") sample_randomness [xbe; xef].

(** The response of a beacon for round [r]. *)
Definition pulse_response (r : Z) : json :=
  beacon_response (JInt r) sample_randomness [xbe; xef].

(** The pulse a beacon's response for round [r] validates to. *)
Definition sample_pulse (r : Z) : Pulse :=
  {| round := JInt r; randomness := sample_randomness; signature := [xbe; xef] |}.

(** A world where nothing has happened yet. *)
Definition empty_world (storage : ChainState) : World :=
  {| clock := 0; gets := []; chain := storage; extrinsics := []; stdout := [] |}.

(** Three endpoints: the first cannot be reached, the second answers 503,
    the third answers 200.  Every request takes a second. *)
Definition abc_env : Env :=
  {| requests_get := fun _ uri =>
       if String.eqb uri "https://a.example/latest" then (RequestException, 1000)
       else if String.eqb uri "https://b.example/latest" then (Response 503 JNull, 1000)
       else if String.eqb uri "https://c.example/latest"
            then (Response 200 (JObj [("round", JInt 5)]), 1000)
            else (Response 404 JNull, 1000);
     keypair_public_key := [];
     keypair_sign := fun _ _ => [];
     node_submit := fun _ w => (chain w, mkReceipt true "") |}.

Definition abc_endpoints : list string :=
  ["https://a.example"; "https://b.example"; "https://c.example"].

Definition abc_world : World := empty_world (mkChain None None).

(** A beacon whose first endpoint cannot be reached and whose second
    endpoint serves the latest round [latest] and the rounds [known]; asked
    for round [r] it sends the pulse of round [answer r].  The other
    endpoints answer 404.  Every request takes 100 ms.  The node accepts
    what is submitted and leaves its storage as it is. *)
Definition beacon_env (latest : Z) (known : list Z) (answer : Z -> Z) : Env :=
  {| requests_get := fun _ uri =>
       if String.eqb uri ("https://api.drand.sh" ++ latest_path)%string
          || existsb (fun r => String.eqb uri ("https://api.drand.sh" ++ round_path r)%string) known
       then (RequestException, 100)
       else if String.eqb uri ("https://api2.drand.sh" ++ latest_path)%string
       then (Response 200 (pulse_response latest), 100)
       else
         match find (fun r => String.eqb uri ("https://api2.drand.sh" ++ round_path r)%string)
                    known with
         | Some r => (Response 200 (pulse_response (answer r)), 100)
         | None => (Response 404 JNull, 100)
         end;
     keypair_public_key := [x01; x02];
     keypair_sign := fun _ _ => [x05];
     node_submit := fun _ w => (chain w, mkReceipt true "") |}.

(** Rounds 10 to 12 are served as asked. *)
Definition honest_env : Env := beacon_env 12 [10; 11; 12] (fun r => r).


(** Round 11 is not served. *)
Definition missing_round_env : Env := beacon_env 12 [10; 12] (fun r => r).

(** Round 9 is stored, and submissions are accepted at any block. *)
Definition start_world : World := empty_world (mkChain None (Some 9)).

(** The batches the cycle builds against [honest_env] and against
    [wrong_round_env]. *)
Definition honest_batch : Batch :=
  {| batch_last_stored_round := 9;
     batch_rounds_to_fetch := 3;
     batch_pulses := [sample_pulse 10; sample_pulse 11; sample_pulse 12] |}.


(** ** Further sample beacons *)

(** A beacon whose first endpoint answers at once: [latest_response] for
    the latest round and [respond r] for each round [r] of [known]; the
    other rounds get a 404 from every endpoint. *)
Definition serving_env (latest_response : json) (known : list Z)
    (respond : Z -> json) : Env :=
  {| requests_get := fun _ uri =>
       if String.eqb uri ("https://api.drand.sh" ++ latest_path)%string
       then (Response 200 latest_response, 50)
       else
         match find (fun r => String.eqb uri ("https://api.drand.sh" ++ round_path r)%string)
                    known with
         | Some r => (Response 200 (respond r), 50)
         | None => (Response 404 JNull, 50)
         end;
     keypair_public_key := [x01; x02];
     keypair_sign := fun _ _ => [x05];
     node_submit := fun _ w => (chain w, mkReceipt false "rejected") |}.

(** The latest round comes as the string "12". *)
Definition text_latest_env : Env :=
  serving_env (beacon_response (JStr "12") sample_randomness [xbe; xef]) [] pulse_response.

(** Round 10 comes with its round as the string "10". *)
Definition text_round_env : Env :=
  serving_env (pulse_response 10) [10]
    (fun _ => beacon_response (JStr "10") sample_randomness [xbe; xef]).

(** Rounds 41 to 43 are served as asked; 42 is the latest. *)
Definition first_run_env : Env := serving_env (pulse_response 42) [41; 42; 43] pulse_response.

(** Nothing is stored yet. *)
Definition first_run_world : World := empty_world (mkChain None None).

(** ** Tactics *)

(** The powers of two the byte widths of the encoder give. *)
Ltac pow_bytes :=
  try change (2 ^ (8 * Z.of_nat 1)) with 256 in *;
  try change (2 ^ (8 * Z.of_nat 2)) with 65536 in *;
  try change (2 ^ (8 * Z.of_nat 4)) with 4294967296 in *;
  try change (2 ^ (8 * Z.of_nat 5)) with 1099511627776 in *;
  try change (2 ^ (8 * Z.of_nat 8)) with 18446744073709551616 in *.

(** The four tiers of the compact encoder at a value [v]. *)
Ltac tiers v :=
  unfold encode_compact_u32, compact, tier_width, tier_tag;
  destruct (Z.ltb_spec v 64);
  [|destruct (Z.ltb_spec v 16384);
    [|destruct (Z.ltb_spec v 1073741824)]].

(** * Properties *)

(** ** Bytes and little-endian integers *)

Lemma Z_of_byte_of_Z (z : Z) : Z_of_byte (byte_of_Z z) = z mod 256.
Proof.
  unfold Z_of_byte, byte_of_Z.
  assert (Hr : 0 <= z mod 256 < 256) by (apply Z.mod_pos_bound; lia).
  pose proof (Byte.to_of_N_option_map (Z.to_N (z mod 256))) as H.
  destruct (Byte.of_N (Z.to_N (z mod 256))) as [b|] eqn:E; simpl in H.
  - destruct (N.leb_spec (Z.to_N (z mod 256)) 255) as [_|Hgt]; [|discriminate].
    injection H as ->. lia.
  - destruct (N.leb_spec (Z.to_N (z mod 256)) 255) as [|Hgt]; [discriminate|lia].
Qed.

Lemma Z_of_byte_range (b : byte) : 0 <= Z_of_byte b < 256.
Proof.
  unfold Z_of_byte. pose proof (Byte.to_N_bounded b). lia.
Qed.

Lemma byte_of_Z_of_byte (b : byte) : byte_of_Z (Z_of_byte b) = b.
Proof.
  unfold byte_of_Z. rewrite Z.mod_small by apply Z_of_byte_range.
  unfold Z_of_byte. rewrite N2Z.id, Byte.of_to_N. reflexivity.
Qed.

Lemma Z_of_byte_inj (a b : byte) : Z_of_byte a = Z_of_byte b -> a = b.
Proof.
  intros H. rewrite <- (byte_of_Z_of_byte a), <- (byte_of_Z_of_byte b).
  now rewrite H.
Qed.

Lemma length_le_bytes (n : nat) (v : Z) : List.length (le_bytes n v) = n.
Proof.
  revert v. induction n as [|n IH]; intros v; simpl; [reflexivity|].
  now rewrite IH.
Qed.

(** On a fixed width, the little-endian bytes tell the integers apart. *)
Lemma le_bytes_inj (n : nat) :
  forall x y,
    0 <= x < 2 ^ (8 * Z.of_nat n) -> 0 <= y < 2 ^ (8 * Z.of_nat n) ->
    le_bytes n x = le_bytes n y -> x = y.
Proof.
  induction n as [|n IH]; intros x y Hx Hy H.
  - change (2 ^ (8 * Z.of_nat 0)) with 1 in *. lia.
  - simpl in H. injection H as Hb Ht.
    apply (f_equal Z_of_byte) in Hb. rewrite !Z_of_byte_of_Z in Hb.
    rewrite !Z.shiftr_div_pow2 in Ht by lia.
    change (2 ^ 8) with 256 in Ht.
    assert (Hp : 2 ^ (8 * Z.of_nat (S n)) = 256 * 2 ^ (8 * Z.of_nat n)).
    { replace (8 * Z.of_nat (S n)) with (8 + 8 * Z.of_nat n) by lia.
      rewrite Z.pow_add_r by lia. reflexivity. }
    rewrite Hp in Hx, Hy.
    assert (Hq : x / 256 = y / 256).
    { apply IH; [| |exact Ht]; split;
        try (apply Z.div_pos; lia);
        apply Z.div_lt_upper_bound; lia. }
    rewrite (Z.div_mod x 256), (Z.div_mod y 256) by lia. lia.
Qed.

(** ** The compact encoder *)

Lemma lor_tag (v t : Z) : 0 <= t < 4 -> Z.lor (Z.shiftl v 2) t = 4 * v + t.
Proof.
  intros Ht.
  assert (Hland : Z.land (Z.shiftl v 2) t = 0).
  { apply Z.bits_inj'. intros n Hn.
    rewrite Z.land_spec, Z.bits_0.
    destruct (Z.ltb_spec n 2) as [Hlt|Hge].
    - rewrite Z.shiftl_spec_low by lia. reflexivity.
    - replace t with (t mod 2 ^ 2) by (apply Z.mod_small; change (2 ^ 2) with 4; lia).
      rewrite Z.mod_pow2_bits_high by lia. apply andb_false_r. }
  rewrite <- Z.lxor_lor by exact Hland.
  rewrite <- Z.add_nocarry_lxor by exact Hland.
  rewrite Z.shiftl_mul_pow2 by lia. change (2 ^ 2) with 4. lia.
Qed.

Lemma to_bytes_ok (v : Z) (n : nat) :
  0 <= v < 2 ^ (8 * Z.of_nat n) -> to_bytes v n = Ok (le_bytes n v).
Proof.
  intros [Hlo Hhi]. unfold to_bytes.
  destruct (Z.ltb_spec v 0); [lia|].
  destruct (Z.leb_spec (2 ^ (8 * Z.of_nat n)) v); [lia|]. reflexivity.
Qed.

Lemma to_bytes_err (v : Z) (n : nat) :
  v < 0 \/ 2 ^ (8 * Z.of_nat n) <= v -> to_bytes v n = Err OverflowError.
Proof.
  intros H. unfold to_bytes.
  destruct (Z.ltb_spec v 0); [reflexivity|].
  destruct (Z.leb_spec (2 ^ (8 * Z.of_nat n)) v); [reflexivity|lia].
Qed.

Lemma to_bytes_inv (v : Z) (n : nat) (b : bytes) :
  to_bytes v n = Ok b -> 0 <= v < 2 ^ (8 * Z.of_nat n) /\ b = le_bytes n v.
Proof.
  unfold to_bytes.
  destruct (Z.ltb_spec v 0); [discriminate|].
  destruct (Z.leb_spec (2 ^ (8 * Z.of_nat n)) v); [discriminate|].
  intros [= <-]. split; [lia|reflexivity].
Qed.

(** Below [COMPACT_LIMIT] the code computes the layout of the table. *)
Lemma encode_compact_u32_ok (v : Z) :
  0 <= v < COMPACT_LIMIT -> encode_compact_u32 v = Ok (compact v).
Proof.
  unfold COMPACT_LIMIT. intros Hv. tiers v.
  - rewrite Z.land_ones with (n := 8) by lia.
    rewrite (lor_tag v 0) by lia.
    rewrite Z.shiftl_mul_pow2 by lia. change (2 ^ 2) with 4. change (2 ^ 8) with 256.
    rewrite Z.mod_small by lia.
    rewrite to_bytes_ok; [f_equal; f_equal; lia|].
    change (2 ^ (8 * Z.of_nat 1)) with 256. lia.
  - cbv zeta. rewrite lor_tag by lia. apply to_bytes_ok.
    change (2 ^ (8 * Z.of_nat 2)) with 65536. lia.
  - cbv zeta. rewrite lor_tag by lia. apply to_bytes_ok.
    change (2 ^ (8 * Z.of_nat 4)) with 4294967296. lia.
  - cbv zeta. rewrite lor_tag by lia. apply to_bytes_ok.
    change (2 ^ (8 * Z.of_nat 5)) with 1099511627776. lia.
Qed.

(** From [COMPACT_LIMIT] on, [to_bytes(5, ...)] overflows. *)
Lemma encode_compact_u32_overflow (v : Z) :
  COMPACT_LIMIT <= v -> encode_compact_u32 v = Err OverflowError.
Proof.
  unfold COMPACT_LIMIT. intros Hv. tiers v; try lia.
  cbv zeta. rewrite lor_tag by lia. apply to_bytes_err. right.
  change (2 ^ (8 * Z.of_nat 5)) with 1099511627776. lia.
Qed.

(** A negative value goes through the first branch, whose mask makes the
    number non-negative before [to_bytes]. *)
Lemma encode_compact_u32_negative (v : Z) :
  v < 0 -> encode_compact_u32 v = Ok [byte_of_Z (Z.land (Z.shiftl v 2) 255)].
Proof.
  intros Hv. unfold encode_compact_u32.
  destruct (Z.ltb_spec v 64); [|lia].
  rewrite to_bytes_ok; [reflexivity|].
  rewrite Z.land_ones with (n := 8) by lia.
  change (2 ^ (8 * Z.of_nat 1)) with (2 ^ 8). apply Z.mod_pos_bound. lia.
Qed.

Lemma length_compact (v : Z) : List.length (compact v) = tier_width v.
Proof. unfold compact. apply length_le_bytes. Qed.

Lemma tag_bits_compact (v : Z) : tag_bits (compact v) = tier_tag v.
Proof.
  unfold compact.
  assert (Ht : 0 <= tier_tag v < 4).
  { unfold tier_tag. repeat match goal with |- context [if ?c then _ else _] => destruct c end; lia. }
  assert (Hw : exists k, tier_width v = S k).
  { unfold tier_width. repeat match goal with |- context [if ?c then _ else _] => destruct c end; eauto. }
  destruct Hw as [k ->]. cbn [le_bytes tag_bits]. rewrite Z_of_byte_of_Z, lor_tag by exact Ht.
  change 3 with (Z.ones 2). rewrite Z.land_ones by lia. change (2 ^ 2) with 4.
  rewrite Z.mod_mod_divide by (exists 64; reflexivity).
  rewrite Z.add_comm, Z.mul_comm, Z.mod_add by lia. apply Z.mod_small. exact Ht.
Qed.

(** C3, as amended: for every value from 0 up to, and not including, 2^38,
    [encode_compact_u32] returns [(value << 2) | tag] written little-endian
    on the width of the value's tier, with the widths and tags of the table
    of section 4.1: 1 byte and 0b00 below 64, 2 bytes and 0b01 below 16384,
    4 bytes and 0b10 below 1073741824, 5 bytes and 0b11 from there on. *)
Theorem encode_compact_u32_tiers (value : Z) :
  0 <= value < COMPACT_LIMIT ->
  exists b,
    encode_compact_u32 value = Ok b
    /\ b = le_bytes (tier_width value) (Z.lor (Z.shiftl value 2) (tier_tag value))
    /\ List.length b = tier_width value
    /\ tag_bits b = tier_tag value
    /\ (value < 64 -> tier_width value = 1%nat /\ tier_tag value = 0)
    /\ (64 <= value < 16384 -> tier_width value = 2%nat /\ tier_tag value = 1)
    /\ (16384 <= value < 1073741824 -> tier_width value = 4%nat /\ tier_tag value = 2)
    /\ (1073741824 <= value -> tier_width value = 5%nat /\ tier_tag value = 3).
Proof.
  intros Hv. exists (compact value).
  split; [apply encode_compact_u32_ok; exact Hv|].
  split; [reflexivity|].
  split; [apply length_compact|].
  split; [apply tag_bits_compact|].
  unfold tier_width, tier_tag.
  destruct (Z.ltb_spec value 64);
    [|destruct (Z.ltb_spec value 16384);
      [|destruct (Z.ltb_spec value 1073741824)]];
    repeat split; intros; try lia; reflexivity.
Qed.

(** At 1073741824, the first value of the widest tier. *)
Lemma encode_compact_u32_tiers_witness :
  0 <= 1073741824 < COMPACT_LIMIT
  /\ exists b,
       encode_compact_u32 1073741824 = Ok b
       /\ b = [x03; x00; x00; x00; x01]
       /\ List.length b = 5%nat
       /\ tag_bits b = 3.
Proof.
  assert (H : 0 <= 1073741824 < COMPACT_LIMIT) by (unfold COMPACT_LIMIT; lia).
  split; [exact H|].
  destruct (encode_compact_u32_tiers 1073741824 H) as (b & Hb & Hl & Hn & Ht & _).
  exists b. split; [exact Hb|].
  split; [rewrite Hl; reflexivity|].
  split; [rewrite Hn; reflexivity|rewrite Ht; reflexivity].
Defined.

(** C3, as stated, fails at 2^38: the value is in the last row of the
    table, and the code raises [OverflowError] instead of returning five
    bytes. *)
Lemma encode_compact_u32_tiers_counterexample :
  0 <= 274877906944
  /\ 1073741824 <= 274877906944
  /\ encode_compact_u32 274877906944 = Err OverflowError.
Proof. repeat split; try lia. Qed.

(** The boundary values of section 8, byte for byte. *)
Example encode_compact_u32_boundaries :
  encode_compact_u32 0 = Ok [x00]
  /\ encode_compact_u32 63 = Ok [xfc]
  /\ encode_compact_u32 64 = Ok [x01; x01]
  /\ encode_compact_u32 16383 = Ok [xfd; xff]
  /\ encode_compact_u32 16384 = Ok [x02; x00; x01; x00]
  /\ encode_compact_u32 1073741823 = Ok [xfe; xff; xff; xff]
  /\ encode_compact_u32 1073741824 = Ok [x03; x00; x00; x00; x01].
Proof. repeat split. Qed.

(** C4, as amended: [encode_compact_u32] raises exactly on the values from
    2^38 on, and what it raises there is the [OverflowError] of [to_bytes];
    on every other integer, the negative ones included, it returns bytes. *)
Theorem encode_compact_u32_domain (value : Z) :
  (raises (encode_compact_u32 value) <-> COMPACT_LIMIT <= value)
  /\ (forall e, encode_compact_u32 value = Err e -> e = OverflowError)
  /\ (value < COMPACT_LIMIT <-> exists b, encode_compact_u32 value = Ok b).
Proof.
  destruct (Z.lt_ge_cases value COMPACT_LIMIT) as [Hlt|Hge].
  - assert (Hok : exists b, encode_compact_u32 value = Ok b).
    { destruct (Z.lt_ge_cases value 0).
      - eexists. apply encode_compact_u32_negative. assumption.
      - eexists. apply encode_compact_u32_ok. lia. }
    destruct Hok as [b Hb]. rewrite Hb. repeat split.
    + intros [e He]. discriminate.
    + lia.
    + intros e He. discriminate.
    + intros _. exists b. reflexivity.
    + intros _. exact Hlt.
  - rewrite (encode_compact_u32_overflow value Hge). repeat split.
    + intros _. exact Hge.
    + intros _. exists OverflowError. reflexivity.
    + intros e [= <-]. reflexivity.
    + lia.
    + intros [b Hb]. discriminate.
Qed.

(** C4, as stated, fails at -1, where the code returns the byte 0xfc, and
    at 2^38, a non-negative value where it raises. *)
Lemma encode_compact_u32_domain_counterexample :
  encode_compact_u32 (-1) = Ok [xfc]
  /\ encode_compact_u32 (2 ^ 38) = Err OverflowError
  /\ ~ raises_exactly_on_negatives.
Proof.
  split; [reflexivity|]. split; [reflexivity|].
  intros H. destruct (H (-1)) as [[_ Hneg] _].
  destruct Hneg as [e He]; [lia|]. discriminate.
Qed.

(** ** The payload encoder *)

Lemma len_nonneg {A} (l : list A) : 0 <= len l.
Proof. unfold len. lia. Qed.

Lemma u64_round_encodable (p : Pulse) :
  u64_round p -> short_fields p -> encodable_pulse p.
Proof.
  intros (r & Hr & Hb) Hs. split; [|exact Hs].
  exists r. rewrite Hr. split; [reflexivity|exact Hb].
Qed.

Lemma py_to_bytes_round (p : Pulse) (b : bytes) :
  py_to_bytes (round p) 8 = Ok b <->
  (exists v, py_int (round p) = Ok v /\ 0 <= v < 2 ^ 64) /\ b = le_bytes 8 (round_value p).
Proof.
  unfold py_to_bytes, py_int, round_value.
  change (2 ^ 64) with (2 ^ (8 * Z.of_nat 8)).
  destruct (round p) as [|x|z|?|?|?]; split;
    try (intros H; discriminate H);
    try (intros [(v & Hv & _) _]; discriminate Hv).
  - intros H. apply to_bytes_inv in H as [Hr ->]. split; [eauto|reflexivity].
  - intros [(v & [= <-] & Hr) ->]. apply to_bytes_ok. exact Hr.
  - intros H. apply to_bytes_inv in H as [Hr ->]. split; [eauto|reflexivity].
  - intros [(v & [= <-] & Hr) ->]. apply to_bytes_ok. exact Hr.
Qed.

Lemma encode_compact_u32_len {A} (l : list A) (b : bytes) :
  encode_compact_u32 (len l) = Ok b <-> len l < COMPACT_LIMIT /\ b = compact (len l).
Proof.
  pose proof (len_nonneg l) as Hn.
  destruct (Z.lt_ge_cases (len l) COMPACT_LIMIT) as [Hlt|Hge].
  - rewrite encode_compact_u32_ok by lia. split.
    + intros [= <-]. auto.
    + intros [_ ->]. reflexivity.
  - rewrite encode_compact_u32_overflow by exact Hge. split.
    + discriminate.
    + intros [Hlt _]. lia.
Qed.

(** What the loop appends for one pulse, and when. *)
Lemma encode_pulses_loop_cons (encoded : bytes) (p : Pulse) (rest : list Pulse) :
  encode_pulses_loop encoded (p :: rest) =
    match py_to_bytes (round p) 8,
          encode_compact_u32 (len (randomness p)),
          encode_compact_u32 (len (signature p)) with
    | Ok r, Ok c1, Ok c2 =>
        encode_pulses_loop
          (encoded ++ r ++ c1 ++ randomness p ++ c2 ++ signature p) rest
    | Err e, _, _ => Err e
    | Ok _, Err e, _ => Err e
    | Ok _, Ok _, Err e => Err e
    end.
Proof.
  cbn [encode_pulses_loop]. unfold rbind.
  destruct (py_to_bytes (round p) 8); [|reflexivity].
  destruct (encode_compact_u32 (len (randomness p))); [|reflexivity].
  destruct (encode_compact_u32 (len (signature p))); [|reflexivity].
  now rewrite <- !app_assoc.
Qed.

(** The body of the loop is [encode_pulse], written out. *)
Lemma encode_pulses_loop_encode_pulse (encoded b : bytes) (p : Pulse)
    (rest : list Pulse) :
  encode_pulse p = Ok b ->
  encode_pulses_loop encoded (p :: rest) = encode_pulses_loop (encoded ++ b) rest.
Proof.
  rewrite encode_pulses_loop_cons. unfold encode_pulse, rbind.
  destruct (py_to_bytes (round p) 8); [|discriminate].
  destruct (encode_compact_u32 (len (randomness p))); [|discriminate].
  destruct (encode_compact_u32 (len (signature p))); [|discriminate].
  intros [= <-]. now rewrite <- !app_assoc.
Qed.

Lemma encode_pulses_loop_spec (ps : list Pulse) :
  forall encoded b,
    encode_pulses_loop encoded ps = Ok b <->
    Forall encodable_pulse ps /\ b = encoded ++ flat_map pulse_layout ps.
Proof.
  induction ps as [|p ps IH]; intros encoded b.
  - cbn. rewrite app_nil_r. split.
    + intros [= <-]. auto.
    + intros [_ ->]. reflexivity.
  - rewrite encode_pulses_loop_cons.
    destruct (py_to_bytes (round p) 8) as [r|e] eqn:Er.
    2:{ split; [discriminate|]. intros [Hf _]. inversion Hf as [|? ? [Hp _] _]; subst.
        assert (H : py_to_bytes (round p) 8 = Ok (le_bytes 8 (round_value p)))
          by (apply py_to_bytes_round; auto).
        congruence. }
    apply py_to_bytes_round in Er as [Hr ->].
    destruct (encode_compact_u32 (len (randomness p))) as [c1|e] eqn:E1.
    2:{ split; [discriminate|]. intros [Hf _]. inversion Hf as [|? ? [_ [Hs _]] _]; subst.
        assert (H : encode_compact_u32 (len (randomness p)) = Ok (compact (len (randomness p))))
          by (apply encode_compact_u32_len; auto).
        congruence. }
    apply encode_compact_u32_len in E1 as [H1 ->].
    destruct (encode_compact_u32 (len (signature p))) as [c2|e] eqn:E2.
    2:{ split; [discriminate|]. intros [Hf _]. inversion Hf as [|? ? [_ [_ Hs]] _]; subst.
        assert (H : encode_compact_u32 (len (signature p)) = Ok (compact (len (signature p))))
          by (apply encode_compact_u32_len; auto).
        congruence. }
    apply encode_compact_u32_len in E2 as [H2 ->].
    rewrite IH. cbn [flat_map]. unfold pulse_layout at 2.
    rewrite <- !app_assoc. split.
    + intros [Hf ->]. split; [|reflexivity].
      constructor; [|exact Hf]. split; [exact Hr|split; assumption].
    + intros [Hf ->]. split; [|reflexivity]. now inversion Hf.
Qed.

(** The code returns bytes exactly on the payloads whose numbers and
    lengths fit, and then the bytes are those of the layout. *)
Lemma encode_pulses_payload_spec (payload : PulsesPayload) (b : bytes) :
  encode_pulses_payload payload = Ok b <->
  (0 <= block_number payload < 2 ^ 32
   /\ len (pulses payload) < COMPACT_LIMIT
   /\ Forall encodable_pulse (pulses payload))
  /\ b = payload_layout payload.
Proof.
  unfold encode_pulses_payload, payload_layout, rbind.
  change (2 ^ 32) with (2 ^ (8 * Z.of_nat 4)).
  destruct (to_bytes (block_number payload) 4) as [e0|e] eqn:E0.
  2:{ split; [discriminate|]. intros [(Hb & _) _].
      rewrite to_bytes_ok in E0 by exact Hb. discriminate. }
  apply to_bytes_inv in E0 as [Hb ->].
  destruct (encode_compact_u32 (len (pulses payload))) as [c|e] eqn:Ec.
  2:{ split; [discriminate|]. intros [(_ & Hl & _) _].
      assert (H : encode_compact_u32 (len (pulses payload)) = Ok (compact (len (pulses payload))))
        by (apply encode_compact_u32_len; auto).
      congruence. }
  apply encode_compact_u32_len in Ec as [Hl ->].
  destruct (encode_pulses_loop _ (pulses payload)) as [enc|e] eqn:El.
  - apply encode_pulses_loop_spec in El as [Hf ->]. rewrite <- !app_assoc. split.
    + intros [= <-]. auto.
    + intros [_ ->]. reflexivity.
  - split; [discriminate|]. intros [(_ & _ & Hf) _].
    assert (H : encode_pulses_loop
                  (le_bytes 4 (block_number payload) ++ compact (len (pulses payload)))
                  (pulses payload)
                = Ok ((le_bytes 4 (block_number payload) ++ compact (len (pulses payload)))
                      ++ flat_map pulse_layout (pulses payload)))
      by (apply encode_pulses_loop_spec; auto).
    congruence.
Qed.

(** C1, as amended: for every payload whose block number fits in 32 bits,
    whose rounds are integers that fit in 64 bits, and whose pulse count and
    byte-field lengths are below 2^38, [encode_pulses_payload] returns
    exactly the block number on 4 little-endian bytes, the compact count of
    pulses, for each pulse in order its round on 8 little-endian bytes and
    its randomness and signature each behind its compact length, the byte
    0x01, and the public key. *)
Theorem encode_pulses_payload_layout (payload : PulsesPayload) :
  0 <= block_number payload < 2 ^ 32 ->
  Forall u64_round (pulses payload) ->
  len (pulses payload) < COMPACT_LIMIT ->
  Forall short_fields (pulses payload) ->
  encode_pulses_payload payload
  = Ok (le_bytes 4 (block_number payload)
        ++ compact (len (pulses payload))
        ++ flat_map
             (fun p =>
                le_bytes 8 (round_value p)
                ++ compact (len (randomness p)) ++ randomness p
                ++ compact (len (signature p)) ++ signature p)
             (pulses payload)
        ++ [x01]
        ++ public payload).
Proof.
  intros Hb Hr Hl Hs.
  apply (encode_pulses_payload_spec payload (payload_layout payload)).
  split; [|reflexivity]. repeat split; try assumption; try lia.
  rewrite Forall_forall in *. intros p Hp.
  apply u64_round_encodable; auto.
Qed.

Lemma encode_pulses_payload_layout_witness :
  0 <= block_number sample_payload < 2 ^ 32
  /\ Forall u64_round (pulses sample_payload)
  /\ len (pulses sample_payload) < COMPACT_LIMIT
  /\ Forall short_fields (pulses sample_payload)
  /\ encode_pulses_payload sample_payload
     = Ok [x07; x00; x00; x00;
           x08;
           x02; x01; x00; x00; x00; x00; x00; x00; x08; x0a; x0b; x04; xff;
           x03; x01; x00; x00; x00; x00; x00; x00; x00; x00;
           x01;
           xaa; xbb].
Proof.
  assert (H1 : 0 <= block_number sample_payload < 2 ^ 32) by (simpl; lia).
  assert (H2 : Forall u64_round (pulses sample_payload)).
  { repeat constructor; eexists; (split; [reflexivity|lia]). }
  assert (H3 : len (pulses sample_payload) < COMPACT_LIMIT) by reflexivity.
  assert (H4 : Forall short_fields (pulses sample_payload)).
  { repeat constructor. }
  repeat (split; [assumption|]).
  exact (encode_pulses_payload_layout sample_payload H1 H2 H3 H4).
Defined.

(** A signature of 2^38 bytes or more stops the encoder. *)
Lemma encode_pulses_payload_long_signature
    (bn r : Z) (rand sig pk : bytes) :
  0 <= bn < 2 ^ 32 -> 0 <= r < 2 ^ 64 ->
  len rand < COMPACT_LIMIT -> COMPACT_LIMIT <= len sig ->
  encode_pulses_payload (mkPayload bn [mkPulse (JInt r) rand sig] pk)
  = Err OverflowError.
Proof.
  intros Hb Hr H1 H2. unfold encode_pulses_payload.
  cbn [block_number pulses public].
  rewrite to_bytes_ok by exact Hb. cbn [rbind].
  change (len [mkPulse (JInt r) rand sig]) with 1.
  rewrite encode_compact_u32_ok by (unfold COMPACT_LIMIT; lia). cbn [rbind].
  rewrite encode_pulses_loop_cons. cbn [round randomness signature py_to_bytes].
  rewrite to_bytes_ok by exact Hr.
  rewrite encode_compact_u32_ok by (pose proof (len_nonneg rand); lia).
  rewrite encode_compact_u32_overflow by exact H2. reflexivity.
Qed.

(** C1, as stated, fails on a payload within its hypotheses whose one
    signature has 2^38 bytes: the code raises [OverflowError]. *)
Lemma encode_pulses_payload_layout_counterexample :
  0 <= block_number oversized_payload < 2 ^ 32
  /\ Forall u64_round (pulses oversized_payload)
  /\ encode_pulses_payload oversized_payload = Err OverflowError.
Proof.
  split; [cbn [block_number oversized_payload]; lia|].
  split.
  - unfold oversized_payload. cbn [pulses]. constructor; [|constructor].
    exists 0. split; [reflexivity|lia].
  - unfold oversized_payload. apply encode_pulses_payload_long_signature.
    + lia.
    + lia.
    + reflexivity.
    + unfold len. rewrite repeat_length. rewrite Z2Nat.id; unfold COMPACT_LIMIT; lia.
Qed.

(** ** The encoding tells payloads apart *)

Lemma app_inv_length {A} (a b x y : list A) :
  List.length a = List.length b -> a ++ x = b ++ y -> a = b /\ x = y.
Proof.
  revert b. induction a as [|h a IH]; intros [|k b] Hl H; try discriminate.
  - auto.
  - cbn in H. injection H as -> H. injection Hl as Hl.
    destruct (IH b Hl H) as [-> ->]. auto.
Qed.

Lemma len_inj {A B} (a : list A) (b : list B) :
  len a = len b -> List.length a = List.length b.
Proof. unfold len. lia. Qed.

Lemma tag_bits_compact_app (v : Z) (x : bytes) :
  tag_bits (compact v ++ x) = tier_tag v.
Proof.
  rewrite <- tag_bits_compact.
  pose proof (length_compact v) as Hl.
  destruct (compact v) as [|h t]; [|reflexivity].
  unfold tier_width in Hl. cbn in Hl.
  repeat match type of Hl with context [if ?c then _ else _] => destruct c end;
    discriminate.
Qed.

(** No compact encoding is the start of another one. *)
Lemma compact_prefix_inj (a b : Z) (x y : bytes) :
  0 <= a < COMPACT_LIMIT -> 0 <= b < COMPACT_LIMIT ->
  compact a ++ x = compact b ++ y -> a = b /\ x = y.
Proof.
  unfold COMPACT_LIMIT. intros Ha Hb H.
  assert (Ht : tier_tag a = tier_tag b).
  { rewrite <- (tag_bits_compact_app a x), <- (tag_bits_compact_app b y). now rewrite H. }
  assert (Hw : tier_width a = tier_width b).
  { revert Ht. unfold tier_tag, tier_width.
    repeat match goal with |- context [if ?c then _ else _] => destruct c end;
      intros; try reflexivity; discriminate. }
  apply app_inv_length in H as [Hc ->];
    [|rewrite !length_compact; exact Hw].
  split; [|reflexivity].
  unfold compact in Hc. rewrite <- Hw, <- Ht in Hc.
  assert (Hr : 0 <= tier_tag a < 4).
  { unfold tier_tag. repeat match goal with |- context [if ?c then _ else _] => destruct c end; lia. }
  rewrite !lor_tag in Hc by exact Hr.
  apply le_bytes_inj in Hc; [lia| |].
  - clear Hc Hw. unfold tier_width, tier_tag in *.
    destruct (Z.ltb_spec a 64);
      [|destruct (Z.ltb_spec a 16384); [|destruct (Z.ltb_spec a 1073741824)]];
      pow_bytes; lia.
  - clear Hc. revert Hw Ht. unfold tier_width, tier_tag.
    destruct (Z.ltb_spec a 64);
      [|destruct (Z.ltb_spec a 16384); [|destruct (Z.ltb_spec a 1073741824)]];
      (destruct (Z.ltb_spec b 64);
       [|destruct (Z.ltb_spec b 16384); [|destruct (Z.ltb_spec b 1073741824)]]);
      intros; try discriminate; pow_bytes; lia.
Qed.

(** A byte string behind its compact length ends where the length says. *)
Lemma prefixed_bytes_inj (a b x y : bytes) :
  len a < COMPACT_LIMIT -> len b < COMPACT_LIMIT ->
  compact (len a) ++ a ++ x = compact (len b) ++ b ++ y -> a = b /\ x = y.
Proof.
  intros Ha Hb H.
  apply compact_prefix_inj in H as [Hl H];
    try (split; [apply len_nonneg|assumption]).
  apply app_inv_length in H; [exact H|]. apply len_inj. exact Hl.
Qed.

Lemma pulse_layout_prefix_inj (p q : Pulse) (x y : bytes) :
  encodable_pulse p -> encodable_pulse q ->
  pulse_layout p ++ x = pulse_layout q ++ y ->
  round_value p = round_value q
  /\ randomness p = randomness q
  /\ signature p = signature q
  /\ x = y.
Proof.
  intros [(vp & Hvp & Hbp) [Hp1 Hp2]] [(vq & Hvq & Hbq) [Hq1 Hq2]] H.
  unfold pulse_layout in H. rewrite <- !app_assoc in H.
  apply app_inv_length in H as [Hr H]; [|now rewrite !length_le_bytes].
  assert (Ep : round_value p = vp).
  { unfold round_value, py_int in *. destruct (round p); congruence. }
  assert (Eq : round_value q = vq).
  { unfold round_value, py_int in *. destruct (round q); congruence. }
  apply le_bytes_inj in Hr;
    [|change (2 ^ (8 * Z.of_nat 8)) with (2 ^ 64); lia
     |change (2 ^ (8 * Z.of_nat 8)) with (2 ^ 64); lia].
  apply prefixed_bytes_inj in H as [Hrand H]; try assumption.
  apply prefixed_bytes_inj in H as [Hsig H]; try assumption.
  auto.
Qed.






(** ** Hexadecimal text *)

Lemma string_pair_ind (P : string -> Prop) :
  P EmptyString ->
  (forall c, P (String c EmptyString)) ->
  (forall a b s, P s -> P (String a (String b s))) ->
  forall s, P s.
Proof.
  intros H0 H1 H2.
  assert (H : forall s, P s /\ forall c, P (String c s)).
  { induction s as [|a s [IH1 IH2]].
    - split; [exact H0|exact H1].
    - split; [apply IH2|]. intros c. apply H2. exact IH1. }
  intros s. apply H.
Qed.

Lemma hex_value_range (c : ascii) (h : Z) :
  hex_value c = Some h -> 0 <= h < 16 /\ is_ascii c = true.
Proof.
  unfold hex_value, is_ascii. intros H.
  repeat match type of H with
         | context [if ?b then _ else _] => destruct b eqn:?
         end; try discriminate; injection H as <-; lia.
Qed.

Lemma hex_value_hex_digit (n : Z) :
  0 <= n < 16 -> hex_value (hex_digit n) = Some n.
Proof.
  intros Hn. rewrite <- (Z2Nat.id n) by lia.
  assert (Hm : (Z.to_nat n < 16)%nat) by lia.
  generalize dependent (Z.to_nat n). clear Hn. intros m Hm.
  do 16 (destruct m as [|m]; [reflexivity|]). lia.
Qed.

Lemma byte_of_nibbles (h l : Z) :
  0 <= h < 16 -> 0 <= l < 16 ->
  Z_of_byte (byte_of_Z (16 * h + l)) / 16 = h
  /\ Z_of_byte (byte_of_Z (16 * h + l)) mod 16 = l.
Proof.
  intros Hh Hl. rewrite Z_of_byte_of_Z, Z.mod_small by lia.
  split.
  - rewrite Z.mul_comm, Z.div_add_l by lia. rewrite Z.div_small; lia.
  - rewrite Z.add_comm, Z.mul_comm, Z.mod_add by lia. apply Z.mod_small. lia.
Qed.

(** The pairs decode exactly when every character is a hex digit. *)
Lemma unhex_pairs_ok_iff (s : string) :
  Nat.even (String.length s) = true ->
  ((exists b, unhex_pairs s = Ok b) <-> string_forallb is_hex_digit s = true).
Proof.
  induction s as [| c | hi lo s IH] using string_pair_ind; intros He.
  - cbn. split; eauto.
  - discriminate.
  - cbn [String.length Nat.even] in He. specialize (IH He).
    cbn [unhex_pairs string_forallb]. unfold is_hex_digit at 1 2.
    destruct (hex_value hi) as [h|]; [|cbn; split; [intros [b Hb]; discriminate|discriminate]].
    destruct (hex_value lo) as [l|]; [|cbn; split; [intros [b Hb]; discriminate|discriminate]].
    cbn [andb]. rewrite <- IH. unfold rbind.
    destruct (unhex_pairs s) as [t|e]; split; eauto;
      intros [b Hb]; discriminate.
Qed.

Lemma unhex_pairs_length (s : string) :
  forall b, unhex_pairs s = Ok b ->
            Nat.even (String.length s) = true ->
            String.length s = (2 * List.length b)%nat.
Proof.
  induction s as [| c | hi lo s IH] using string_pair_ind; intros b Hb He.
  - injection Hb as <-. reflexivity.
  - discriminate.
  - cbn [String.length Nat.even] in He. cbn [unhex_pairs] in Hb.
    destruct (hex_value hi); [|discriminate].
    destruct (hex_value lo); [|discriminate].
    unfold rbind in Hb. destruct (unhex_pairs s) as [t|e]; [|discriminate].
    injection Hb as <-. cbn [String.length List.length].
    rewrite (IH t eq_refl He). lia.
Qed.

Lemma hex_digits_ascii (s : string) :
  string_forallb is_hex_digit s = true -> string_forallb is_ascii s = true.
Proof.
  induction s as [|c s IH]; [reflexivity|].
  cbn [string_forallb]. intros H. apply andb_prop in H as [Hc Hs].
  rewrite IH by exact Hs. unfold is_hex_digit in Hc.
  destruct (hex_value c) as [h|] eqn:E; [|discriminate].
  apply hex_value_range in E as [_ ->]. reflexivity.
Qed.

(** [unhexlify] returns exactly on the hex strings. *)
Lemma unhexlify_str_ok_iff (s : string) :
  (exists b, unhexlify_str s = Ok b) <-> is_hex_string s = true.
Proof.
  unfold unhexlify_str, is_hex_string.
  rewrite <- Nat.negb_even.
  destruct (Nat.even (String.length s)) eqn:He.
  - cbn [negb andb]. rewrite <- (unhex_pairs_ok_iff s He). split.
    + destruct (string_forallb is_ascii s); cbn [negb]; [tauto|].
      intros [b Hb]. discriminate.
    + intros Hb. pose proof Hb as Hd.
      apply (unhex_pairs_ok_iff s He) in Hd. apply hex_digits_ascii in Hd.
      rewrite Hd. exact Hb.
  - cbn [negb andb]. split; [|discriminate].
    destruct (string_forallb is_ascii s); cbn [negb]; intros [b Hb]; discriminate.
Qed.

Lemma unhexlify_str_length (s : string) (b : bytes) :
  unhexlify_str s = Ok b -> String.length s = (2 * List.length b)%nat.
Proof.
  unfold unhexlify_str. rewrite <- Nat.negb_even.
  destruct (string_forallb is_ascii s); cbn [negb]; [|discriminate].
  destruct (Nat.even (String.length s)) eqn:He; cbn [negb]; [|discriminate].
  intros Hb. apply unhex_pairs_length; assumption.
Qed.

(** What [bytes.hex] writes, [unhexlify] reads back. *)
Lemma unhexlify_str_hex (b : bytes) : unhexlify_str (hex b) = Ok b.
Proof.
  assert (Hp : unhex_pairs (hex b) = Ok b).
  { induction b as [|x b IH]; [reflexivity|].
    cbn [hex unhex_pairs].
    assert (Hh : 0 <= Z_of_byte x / 16 < 16).
    { pose proof (Z_of_byte_range x). split.
      - apply Z.div_pos; lia.
      - apply Z.div_lt_upper_bound; lia. }
    assert (Hl : 0 <= Z_of_byte x mod 16 < 16) by (apply Z.mod_pos_bound; lia).
    rewrite !hex_value_hex_digit by assumption.
    rewrite IH. cbn [rbind]. f_equal. f_equal.
    rewrite <- (byte_of_Z_of_byte x) at 3. f_equal.
    rewrite (Z.div_mod (Z_of_byte x) 16) at 3 by lia. reflexivity. }
  assert (He : Nat.even (String.length (hex b)) = true).
  { clear Hp. induction b as [|x b IH]; [reflexivity|exact IH]. }
  assert (Hd : string_forallb is_hex_digit (hex b) = true)
    by (apply (unhex_pairs_ok_iff _ He); eauto).
  unfold unhexlify_str. rewrite (hex_digits_ascii _ Hd). cbn [negb].
  rewrite <- Nat.negb_even, He. cbn [negb]. exact Hp.
Qed.

(** ** The validator *)

Lemma py_getitem_field (resp : json) (key : string) :
  py_getitem resp key =
    match field resp key with
    | Some v => Ok v
    | None => Err (match resp with JObj _ => KeyError key | _ => TypeError end)
    end.
Proof.
  destruct resp; reflexivity.
Qed.

Lemma unhexlify_cases (x : json) :
  (exists s b, x = JStr s /\ hex_text (Some x) = Some s
               /\ unhexlify x = Ok b
               /\ String.length s = (2 * List.length b)%nat)
  \/ (hex_text (Some x) = None /\ raises (unhexlify x)).
Proof.
  destruct x as [| |?|s|?|?]; try (right; split; [reflexivity|eexists; reflexivity]).
  cbn [hex_text unhexlify].
  destruct (is_hex_string s) eqn:E.
  - apply unhexlify_str_ok_iff in E as [b Hb]. left. exists s, b.
    repeat split; try assumption. apply unhexlify_str_length. exact Hb.
  - right. split; [reflexivity|].
    destruct (unhexlify_str s) as [b|e] eqn:Hb; [|eexists; reflexivity].
    assert (H : is_hex_string s = true) by (apply unhexlify_str_ok_iff; eauto).
    congruence.
Qed.

(** The validator returns exactly on the responses that have the three
    keys, hex strings under two of them, and 64 digits of randomness. *)
Lemma try_into_pulse_ok_iff (resp : json) (p : Pulse) :
  try_into_pulse resp = Ok p <->
  field resp "round" = Some (round p)
  /\ (exists s, field resp "randomness" = Some (JStr s)
                /\ unhexlify_str s = Ok (randomness p))
  /\ (exists s, field resp "signature" = Some (JStr s)
                /\ unhexlify_str s = Ok (signature p))
  /\ len (randomness p) = 32.
Proof.
  unfold try_into_pulse. rewrite !py_getitem_field.
  destruct (field resp "round") as [r|];
    [|cbn; split; [discriminate|intros [H _]; discriminate]].
  cbn [rbind].
  destruct (field resp "randomness") as [x1|];
    [|cbn; split; [discriminate|intros (_ & (s & H & _) & _); discriminate]].
  cbn [rbind].
  destruct (unhexlify x1) as [rand|e] eqn:E1; cbn [rbind].
  2:{ split; [discriminate|]. intros (_ & (s & [= ->] & H) & _).
      cbn in E1. congruence. }
  destruct (field resp "signature") as [x2|];
    [|cbn; split; [discriminate|intros (_ & _ & (s & H & _) & _); discriminate]].
  cbn [rbind].
  destruct (unhexlify x2) as [sig|e] eqn:E2; cbn [rbind].
  2:{ split; [discriminate|]. intros (_ & _ & (s & [= ->] & H) & _).
      cbn in E2. congruence. }
  destruct x1 as [| |?|s1|?|?]; try discriminate.
  destruct x2 as [| |?|s2|?|?]; try discriminate.
  cbn [unhexlify] in E1, E2.
  destruct (Z.eqb_spec (len rand) 32) as [Hl|Hl]; cbn [negb].
  - split.
    + intros [= <-]. cbn [round randomness signature]. eauto 10.
    + intros ([= ->] & (s & [= <-] & H1) & (s' & [= <-] & H2) & _).
      destruct p as [pr prand psig]. cbn [round randomness signature] in *.
      congruence.
  - split; [discriminate|].
    intros (_ & (s & [= <-] & H1) & _ & H3). congruence.
Qed.

Lemma try_into_pulse_raises_iff (resp : json) :
  raises (try_into_pulse resp) <->
  (field resp "round" = None
   \/ hex_text (field resp "randomness") = None
   \/ hex_text (field resp "signature") = None
   \/ exists s, hex_text (field resp "randomness") = Some s
                /\ String.length s <> 64%nat).
Proof.
  unfold try_into_pulse. rewrite !py_getitem_field.
  destruct (field resp "round") as [r|];
    [|split; [auto|intros _; eexists; reflexivity]].
  cbn [rbind].
  destruct (field resp "randomness") as [x1|];
    [|split; [auto|intros _; eexists; reflexivity]].
  cbn [rbind].
  destruct (unhexlify_cases x1) as [(s1 & rand & -> & Ht1 & E1 & L1)|[Ht1 [e1 E1]]].
  2:{ rewrite E1, Ht1. split; [auto|intros _; eexists; reflexivity]. }
  rewrite E1, Ht1. cbn [rbind].
  destruct (field resp "signature") as [x2|];
    [|split; [auto|intros _; eexists; reflexivity]].
  cbn [rbind].
  destruct (unhexlify_cases x2) as [(s2 & sig & -> & Ht2 & E2 & L2)|[Ht2 [e2 E2]]].
  2:{ rewrite E2, Ht2. split; [auto|intros _; eexists; reflexivity]. }
  rewrite E2, Ht2. cbn [rbind].
  destruct (Z.eqb_spec (len rand) 32) as [Hl|Hl]; cbn [negb].
  - split.
    + intros [e He]. discriminate.
    + intros [H|[H|[H|(s & [= <-] & H)]]]; try discriminate.
      unfold len in Hl. lia.
  - split.
    + intros _. right. right. right. exists s1. split; [reflexivity|].
      unfold len in Hl. lia.
    + intros _. eexists. reflexivity.
Qed.

(** C5, as amended: [try_into_pulse] raises if and only if one of the keys
    round, randomness and signature is absent, or randomness or signature
    is not a string of hexadecimal digits, or randomness decodes to other
    than 32 bytes; the value under round is not inspected.  When it
    returns, the pulse carries the round of the response as it is and the
    bytes the two hex strings decode to, so the response a beacon builds
    from a round, 32 bytes of randomness and a signature gives these three
    back unchanged. *)
Theorem try_into_pulse_validates :
  (forall resp,
      raises (try_into_pulse resp) <->
      (field resp "round" = None
       \/ hex_text (field resp "randomness") = None
       \/ hex_text (field resp "signature") = None
       \/ exists s, hex_text (field resp "randomness") = Some s
                    /\ String.length s <> 64%nat))
  /\ (forall resp p,
         try_into_pulse resp = Ok p ->
         field resp "round" = Some (round p)
         /\ (exists s, field resp "randomness" = Some (JStr s)
                       /\ unhexlify_str s = Ok (randomness p))
         /\ (exists s, field resp "signature" = Some (JStr s)
                       /\ unhexlify_str s = Ok (signature p))
         /\ len (randomness p) = 32)
  /\ (forall r rand sig,
         len rand = 32 ->
         try_into_pulse (beacon_response r rand sig) = Ok (mkPulse r rand sig)).
Proof.
  split; [exact try_into_pulse_raises_iff|].
  split; [intros resp p H; apply try_into_pulse_ok_iff; exact H|].
  intros r rand sig Hl. apply try_into_pulse_ok_iff.
  cbn [round randomness signature]. split; [reflexivity|].
  split; [exists (hex rand); split; [reflexivity|apply unhexlify_str_hex]|].
  split; [exists (hex sig); split; [reflexivity|apply unhexlify_str_hex]|].
  exact Hl.
Qed.

Lemma try_into_pulse_validates_witness :
  len sample_randomness = 32
  /\ try_into_pulse (beacon_response (JInt 7) sample_randomness [xbe; xef])
     = Ok (mkPulse (JInt 7) sample_randomness [xbe; xef]).
Proof.
  split; [reflexivity|].
  apply (proj2 (proj2 try_into_pulse_validates)). reflexivity.
Defined.

(** C5, as stated, fails on a response whose round is the string "abc":
    the round is malformed and the validator returns a pulse that carries
    it. *)
Lemma try_into_pulse_validates_counterexample :
  integer_round (field text_round_response "round") = false
  /\ try_into_pulse text_round_response
     = Ok (mkPulse (JStr "abc") sample_randomness [xbe; xef])
  /\ ~ rejects_every_malformed_field.
Proof.
  split; [reflexivity|]. split; [reflexivity|].
  intros H. destruct (H text_round_response) as [_ Hr].
  destruct Hr as [e He]; [left; reflexivity|]. discriminate.
Qed.

(** ** The fetcher *)

Lemma ok_body_some (r : reply) (body : json) :
  ok_body r = Some body <-> r = Response 200 body.
Proof.
  destruct r as [|sc b]; cbn [ok_body]; [split; discriminate|].
  destruct (Z.eqb_spec sc 200) as [->|Hne]; split; congruence.
Qed.

Lemma ok_body_none (r : reply) : ok_body r = None <-> failed r.
Proof.
  destruct r as [|sc b]; cbn [ok_body failed]; [tauto|].
  destruct (Z.eqb_spec sc 200); split; congruence.
Qed.

(** One turn of the loop. *)
Lemma fetch_loop_cons (env : Env) (d : Z) (e : string) (rest : list string)
    (path : string) (w : World) :
  fetch_loop env d (e :: rest) path w =
    match ok_body (reply_to env e path w) with
    | Some body => (Ok body, after_get env e path w)
    | None =>
        if d <? clock (after_get env e path w)
        then (Err NoEndpointAvailableError, after_get env e path w)
        else fetch_loop env d rest path (after_get env e path w)
    end.
Proof.
  cbn [fetch_loop]. unfold bind, after_get, reply_to, http_get.
  destruct (requests_get env w (e ++ path)%string) as [r dt]. cbn [fst snd].
  destruct (ok_body r); [reflexivity|].
  unfold time_time.
  match goal with |- context [d <? ?c] => destruct (d <? c) end; reflexivity.
Qed.

Lemma sent_app (env : Env) (path : string) (a b : list string) (w : World) :
  sent env path (a ++ b) w = sent env path b (sent env path a w).
Proof.
  revert w. induction a as [|e a IH]; intros w; [reflexivity|apply IH].
Qed.

(** A GET changes the clock and the log of requests, and nothing else. *)
Lemma after_get_frame (env : Env) (e path : string) (w : World) :
  gets (after_get env e path w) = gets w ++ [(e, path)]
  /\ chain (after_get env e path w) = chain w
  /\ extrinsics (after_get env e path w) = extrinsics w
  /\ stdout (after_get env e path w) = stdout w.
Proof.
  unfold after_get, http_get.
  destruct (requests_get env w (e ++ path)%string). cbn. auto.
Qed.

Lemma sent_frame (env : Env) (path : string) (tried : list string) :
  forall w,
    gets (sent env path tried w) = gets w ++ map (fun e => (e, path)) tried
    /\ chain (sent env path tried w) = chain w
    /\ extrinsics (sent env path tried w) = extrinsics w
    /\ stdout (sent env path tried w) = stdout w.
Proof.
  induction tried as [|e tried IH]; intros w.
  - cbn. rewrite app_nil_r. auto.
  - cbn [sent map]. destruct (IH (after_get env e path w)) as (Hg & Hc & Hx & Ho).
    destruct (after_get_frame env e path w) as (Hg' & Hc' & Hx' & Ho').
    rewrite Hg, Hc, Hx, Ho, Hg', Hc', Hx', Ho', <- app_assoc. auto.
Qed.

(** Every run of the loop is one of the three. *)
Lemma fetch_loop_failover (env : Env) (d : Z) (path : string) (es : list string) :
  forall w, failover env d path es w
              (fst (fetch_loop env d es path w))
              (snd (fetch_loop env d es path w)).
Proof.
  induction es as [|e es IH]; intros w.
  - apply list_exhausted. exact I.
  - rewrite fetch_loop_cons.
    destruct (ok_body (reply_to env e path w)) as [body|] eqn:Eb.
    + apply ok_body_some in Eb.
      apply (first_success env d path (e :: es) w [] e es body); auto. exact I.
    + apply ok_body_none in Eb.
      destruct (Z.ltb_spec d (clock (after_get env e path w))) as [Hd|Hd].
      * apply (deadline_elapsed env d path (e :: es) w [] e es); auto. exact I.
      * specialize (IH (after_get env e path w)).
        inversion IH as [tried e' rest body Hes Hall Hr Hres Hw
                        | tried e' rest Hes Hall Hf Hdl Hres Hw
                        | Hall Hres Hw].
        -- apply (first_success env d path (e :: es) w (e :: tried) e' rest body).
           ++ cbn. now rewrite Hes.
           ++ cbn. auto.
           ++ exact Hr.
        -- apply (deadline_elapsed env d path (e :: es) w (e :: tried) e' rest).
           ++ cbn. now rewrite Hes.
           ++ cbn. auto.
           ++ exact Hf.
           ++ exact Hdl.
        -- apply (list_exhausted env d path (e :: es) w). cbn. auto.
Qed.



Lemma fetch_from_unfold (env : Env) (es : list string) (path : string) (w : World) :
  fetch_from env es path w
  = fetch_loop env (clock w + HTTP_FETCH_TIMEOUT) es path w.
Proof. reflexivity. Qed.



(** ** Fetches and the log of requests *)

Lemma fetch_from_trace (env : Env) (es : list string) (path : string) (w : World) :
  exists tried rest,
    es = tried ++ rest
    /\ (es <> [] -> tried <> [])
    /\ snd (fetch_from env es path w) = sent env path tried w.
Proof.
  pose proof (fetch_loop_failover env (clock w + HTTP_FETCH_TIMEOUT) path es w) as Hrun.
  rewrite <- fetch_from_unfold in Hrun.
  destruct (fetch_from env es path w) as [res w']. cbn [fst snd] in *.
  inversion Hrun as [tried e rest body Hes _ _ Hres Hw
                    | tried e rest Hes _ _ _ Hres Hw
                    | _ Hres Hw].
  - exists (tried ++ [e]), rest. rewrite <- app_assoc.
    split; [exact Hes|]. split; [|reflexivity]. intros _. now destruct tried.
  - exists (tried ++ [e]), rest. rewrite <- app_assoc.
    split; [exact Hes|]. split; [|reflexivity]. intros _. now destruct tried.
  - exists es, []. rewrite app_nil_r. auto.
Qed.

Lemma fetch_calls_app (a b : list (string * string)) :
  fetch_calls (a ++ b) = fetch_calls a ++ fetch_calls b.
Proof. unfold fetch_calls. now rewrite filter_app, map_app. Qed.

(** The requests of one fetch count as one call. *)
Lemma fetch_calls_prefix (path : string) (tried rest : list string) :
  DRAND_ENDPOINTS = tried ++ rest -> tried <> [] ->
  fetch_calls (map (fun e => (e, path)) tried) = [path].
Proof.
  unfold DRAND_ENDPOINTS. intros H Hne.
  destruct tried as [|e1 tried]; [contradiction|]. injection H as <- H.
  destruct tried as [|e2 tried]; [reflexivity|]. injection H as <- H.
  destruct tried as [|e3 tried]; [reflexivity|]. injection H as <- H.
  destruct tried as [|e4 tried]; [reflexivity|]. injection H as <- H.
  destruct tried as [|e5 tried]; [reflexivity|]. injection H as <- H.
  destruct tried as [|e6 tried]; [reflexivity|]. discriminate.
Qed.

(** A fetch leaves the chain, the extrinsics and the output alone, and
    adds to the log the requests of one call. *)
Lemma fetch_from_any_endpoint_frame (env : Env) (path : string) (w : World) :
  let w' := snd (fetch_from_any_endpoint env path w) in
  chain w' = chain w
  /\ extrinsics w' = extrinsics w
  /\ stdout w' = stdout w
  /\ exists new, gets w' = gets w ++ new /\ fetch_calls new = [path].
Proof.
  cbv zeta. unfold fetch_from_any_endpoint.
  destruct (fetch_from_trace env DRAND_ENDPOINTS path w) as (tried & rest & Hes & Hne & ->).
  destruct (sent_frame env path tried w) as (Hg & Hc & Hx & Ho).
  repeat (split; [assumption|]).
  exists (map (fun e => (e, path)) tried). split; [exact Hg|].
  apply (fetch_calls_prefix path tried rest Hes). apply Hne. discriminate.
Qed.

(** ** The loop over the rounds *)

Lemma fetch_rounds_loop_cons (env : Env) (acc : list Pulse) (r : Z)
    (rest : list Z) (w : World) :
  fetch_rounds_loop env acc (r :: rest) w =
    match fetch_drand_by_round env r w with
    | (Ok resp, w1) =>
        match try_into_pulse resp with
        | Ok p => fetch_rounds_loop env (acc ++ [p]) rest w1
        | Err e => (Err e, w1)
        end
    | (Err e, w1) => (Err e, w1)
    end.
Proof.
  cbn [fetch_rounds_loop]. unfold bind at 1.
  destruct (fetch_drand_by_round env r w) as [[resp|e] w1]; [|reflexivity].
  unfold bind, lift. destruct (try_into_pulse resp); reflexivity.
Qed.

Lemma fetch_rounds_loop_app (env : Env) (a b : list Z) :
  forall acc w,
    fetch_rounds_loop env acc (a ++ b) w =
      match fetch_rounds_loop env acc a w with
      | (Ok ps, w1) => fetch_rounds_loop env ps b w1
      | (Err e, w1) => (Err e, w1)
      end.
Proof.
  induction a as [|r a IH]; intros acc w; [reflexivity|].
  cbn [app]. rewrite !fetch_rounds_loop_cons.
  destruct (fetch_drand_by_round env r w) as [[resp|e] w1]; [|reflexivity].
  destruct (try_into_pulse resp) as [p|e]; [|reflexivity].
  apply IH.
Qed.

(** The loop returns exactly the pulses that answer its rounds. *)
Lemma fetch_rounds_loop_ok_iff (env : Env) (rs : list Z) :
  forall acc w ps w',
    fetch_rounds_loop env acc rs w = (Ok ps, w') <->
    exists fetched, ps = acc ++ fetched /\ answered env rs fetched w w'.
Proof.
  induction rs as [|r rs IH]; intros acc w ps w'.
  - cbn. unfold ret. split.
    + intros [= <- <-]. exists []. rewrite app_nil_r. auto.
    + intros ([|? ?] & -> & H); [|contradiction].
      subst. now rewrite app_nil_r.
  - rewrite fetch_rounds_loop_cons. cbn [answered].
    destruct (fetch_drand_by_round env r w) as [[resp|e] w1].
    2:{ split; [discriminate|].
        intros ([|p f] & _ & H); [contradiction|].
        destruct H as (resp & w2 & H & _). discriminate. }
    destruct (try_into_pulse resp) as [p|e] eqn:Ep.
    2:{ split; [discriminate|].
        intros ([|p f] & _ & H); [contradiction|].
        destruct H as (resp' & w2 & [= <- <-] & H & _). congruence. }
    rewrite IH. split.
    + intros (f & -> & H). exists (p :: f). rewrite <- app_assoc. split; [reflexivity|].
      exists resp, w1. auto.
    + intros ([|p' f] & -> & H); [contradiction|].
      destruct H as (resp' & w2 & [= <- <-] & Hp & H).
      assert (p' = p) by congruence. subst p'.
      exists f. rewrite <- app_assoc. auto.
Qed.

Lemma answered_length (env : Env) (rs : list Z) :
  forall ps w w', answered env rs ps w w' -> List.length ps = List.length rs.
Proof.
  induction rs as [|r rs IH]; intros [|p ps] w w' H; try contradiction; [reflexivity|].
  destruct H as (resp & w1 & _ & _ & H). cbn. f_equal. eapply IH. exact H.
Qed.

(** What a run of the loop asks the beacon for: the rounds of a prefix of
    its list, each once and in order, and the whole list unless it raises.
    It touches nothing but the clock and the log. *)
Lemma fetch_rounds_loop_trace (env : Env) (rs : list Z) :
  forall acc w,
    let res := fst (fetch_rounds_loop env acc rs w) in
    let w' := snd (fetch_rounds_loop env acc rs w) in
    chain w' = chain w
    /\ extrinsics w' = extrinsics w
    /\ stdout w' = stdout w
    /\ exists k new,
         (k <= List.length rs)%nat
         /\ gets w' = gets w ++ new
         /\ fetch_calls new = map round_path (firstn k rs)
         /\ ((k < List.length rs)%nat -> raises res).
Proof.
  induction rs as [|r rs IH]; intros acc w; cbv zeta.
  - cbn. repeat (split; [reflexivity|]). exists 0%nat, [].
    rewrite app_nil_r. repeat split; auto. lia.
  - rewrite fetch_rounds_loop_cons.
    pose proof (fetch_from_any_endpoint_frame env (round_path r) w) as Hf.
    cbv zeta in Hf. fold (fetch_drand_by_round env r w) in Hf.
    destruct (fetch_drand_by_round env r w) as [[resp|e] w1]; cbn [fst snd] in *.
    2:{ destruct Hf as (Hc & Hx & Ho & new & Hg & Hn).
        repeat (split; [assumption|]). exists 1%nat, new.
        cbn [List.length firstn map]. repeat split; try assumption; try lia.
        intros _. eexists. reflexivity. }
    destruct (try_into_pulse resp) as [p|e]; cbn [fst snd].
    2:{ destruct Hf as (Hc & Hx & Ho & new & Hg & Hn).
        repeat (split; [assumption|]). exists 1%nat, new.
        cbn [List.length firstn map]. repeat split; try assumption; try lia.
        intros _. eexists. reflexivity. }
    specialize (IH (acc ++ [p]) w1). cbv zeta in IH.
    destruct Hf as (Hc & Hx & Ho & new & Hg & Hn).
    destruct IH as (Hc' & Hx' & Ho' & k & new' & Hk & Hg' & Hn' & Hr).
    split; [congruence|]. split; [congruence|]. split; [congruence|].
    exists (S k), (new ++ new'). cbn [List.length firstn map].
    split; [lia|]. split; [rewrite Hg', Hg, app_assoc; reflexivity|].
    split; [rewrite fetch_calls_app, Hn, Hn'; reflexivity|].
    intros Hlt. apply Hr. lia.
Qed.

(** A round that fails after the rounds before it went through stops the
    loop with its exception. *)
Lemma fetch_rounds_loop_fails (env : Env) (done rest : list Z) (r : Z)
    (acc ps : list Pulse) (w w2 w3 : World) (e : exn) :
  fetch_rounds_loop env acc done w = (Ok ps, w2) ->
  round_fails env r w2 e w3 ->
  fetch_rounds_loop env acc (done ++ r :: rest) w = (Err e, w3).
Proof.
  intros Hd Hf. rewrite fetch_rounds_loop_app, Hd, fetch_rounds_loop_cons.
  destruct Hf as [Hf|(resp & Hf & Hv)]; rewrite Hf; [reflexivity|].
  now rewrite Hv.
Qed.

Lemma py_range_inclusive (first count : Z) :
  py_range first (first + count) = inclusive_range first (first + count - 1).
Proof.
  unfold py_range, inclusive_range. do 3 f_equal. lia.
Qed.

Lemma length_inclusive_range (first last : Z) :
  first <= last + 1 -> len (inclusive_range first last) = last - first + 1.
Proof.
  intros H. unfold len, inclusive_range. rewrite length_map, length_seq. lia.
Qed.

(** ** The cycle up to the batch *)

Lemma collect_below_threshold (env : Env) (current_block : Z) (w : World) :
  current_block < value_or_0 (NextUnsignedAt (chain w)) ->
  collect_new_pulses env current_block w = (Ok None, w).
Proof.
  intros H. unfold collect_new_pulses, bind at 1, substrate_query.
  destruct (Z.ltb_spec current_block (value_or_0 (NextUnsignedAt (chain w))));
    [reflexivity|lia].
Qed.

(** Past the threshold and with the latest round known, the cycle is the
    loop over the target rounds. *)
Lemma collect_eligible (env : Env) (current_block : Z) (w w1 : World)
    (resp : json) (latest_pulse : Pulse) (latest : Z) :
  value_or_0 (NextUnsignedAt (chain w)) <= current_block ->
  fetch_drand_latest env w = (Ok resp, w1) ->
  try_into_pulse resp = Ok latest_pulse ->
  py_int (round latest_pulse) = Ok latest ->
  let last :=
    effective_last_stored_round (value_or_0 (LastStoredRound (chain w))) latest in
  let n := Z.min (latest - last) MAX_PULSES_TO_FETCH in
  collect_new_pulses env current_block w =
    if latest <=? last then (Ok None, snd (print "No new rounds to fetch." w1))
    else
      match fetch_rounds_loop env [] (inclusive_range (last + 1) (last + n)) w1 with
      | (Ok [], w2) => (Ok None, snd (print "No new pulses to submit." w2))
      | (Ok (p :: ps), w2) => (Ok (Some (mkBatch last n (p :: ps))), w2)
      | (Err e, w2) => (Err e, w2)
      end.
Proof.
  intros Hn Hf Hv Hi last n.
  unfold collect_new_pulses, bind at 1, substrate_query.
  destruct (Z.ltb_spec current_block (value_or_0 (NextUnsignedAt (chain w))));
    [lia|].
  unfold bind at 1. unfold bind at 1. rewrite Hf.
  unfold bind at 1. unfold lift at 1. rewrite Hv.
  assert (Hlast :
    (if value_or_0 (LastStoredRound (chain w)) =? 0
     then bind (lift (py_int (round latest_pulse))) (fun c => ret (c - 1))
     else ret (value_or_0 (LastStoredRound (chain w)))) w1 = (Ok last, w1)).
  { unfold last, effective_last_stored_round.
    destruct (value_or_0 (LastStoredRound (chain w)) =? 0); [|reflexivity].
    unfold bind, lift. rewrite Hi. reflexivity. }
  unfold bind at 1. rewrite Hlast.
  unfold bind at 1. unfold lift at 1. rewrite Hi.
  destruct (latest <=? last); [reflexivity|].
  replace (last + 1 + Z.min (latest - last) MAX_PULSES_TO_FETCH)
    with ((last + 1) + n) by reflexivity.
  rewrite py_range_inclusive.
  replace (last + 1 + n - 1) with (last + n) by lia.
  unfold bind at 1.
  destruct (fetch_rounds_loop env [] (inclusive_range (last + 1) (last + n)) w1)
    as [[[|p ps]|e] w2]; reflexivity.
Qed.

(** A batch comes out of the cycle only past the gate and out of the
    loop. *)
Lemma collect_some_inv (env : Env) (current_block : Z) (w w' : World) (b : Batch) :
  collect_new_pulses env current_block w = (Ok (Some b), w') ->
  exists resp w1 latest_pulse latest,
    value_or_0 (NextUnsignedAt (chain w)) <= current_block
    /\ fetch_drand_latest env w = (Ok resp, w1)
    /\ try_into_pulse resp = Ok latest_pulse
    /\ py_int (round latest_pulse) = Ok latest
    /\ batch_last_stored_round b
       = effective_last_stored_round (value_or_0 (LastStoredRound (chain w))) latest
    /\ batch_last_stored_round b < latest
    /\ batch_rounds_to_fetch b
       = Z.min (latest - batch_last_stored_round b) MAX_PULSES_TO_FETCH
    /\ batch_pulses b <> []
    /\ fetch_rounds_loop env []
         (inclusive_range (batch_last_stored_round b + 1)
                          (batch_last_stored_round b + batch_rounds_to_fetch b)) w1
       = (Ok (batch_pulses b), w').
Proof.
  intros H.
  destruct (Z.lt_ge_cases current_block (value_or_0 (NextUnsignedAt (chain w))))
    as [Hlt|Hge].
  { rewrite collect_below_threshold in H by exact Hlt. discriminate. }
  destruct (fetch_drand_latest env w) as [[resp|e] w1] eqn:Hf.
  2:{ unfold collect_new_pulses, bind at 1, substrate_query in H.
      destruct (current_block <? _) in H; [discriminate|].
      unfold bind at 1 in H. unfold bind at 1 in H. rewrite Hf in H. discriminate. }
  destruct (try_into_pulse resp) as [lp|e] eqn:Hv.
  2:{ unfold collect_new_pulses, bind at 1, substrate_query in H.
      destruct (current_block <? _) in H; [discriminate|].
      unfold bind at 1 in H. unfold bind at 1 in H. rewrite Hf in H.
      unfold bind at 1 in H. unfold lift at 1 in H. rewrite Hv in H. discriminate. }
  destruct (py_int (round lp)) as [latest|e] eqn:Hi.
  2:{ unfold collect_new_pulses, bind at 1, substrate_query in H.
      destruct (current_block <? _) in H; [discriminate|].
      unfold bind at 1 in H. unfold bind at 1 in H. rewrite Hf in H.
      unfold bind at 1 in H. unfold lift at 1 in H. rewrite Hv in H.
      unfold bind at 1 in H.
      destruct (value_or_0 (LastStoredRound (chain w)) =? 0) in H.
      - unfold bind at 1 in H. unfold lift at 1 in H. rewrite Hi in H. discriminate.
      - unfold ret at 1 in H. unfold bind at 1 in H. unfold lift at 1 in H.
        rewrite Hi in H. discriminate. }
  rewrite (collect_eligible env current_block w w1 resp lp latest Hge Hf Hv Hi) in H.
  cbv zeta in H.
  set (last := effective_last_stored_round _ latest) in *.
  destruct (Z.leb_spec latest last) as [Hle|Hgt]; [discriminate|].
  destruct (fetch_rounds_loop env [] _ w1) as [[[|p ps]|e] w2] eqn:Hl;
    try discriminate.
  injection H as <- <-. cbn [batch_last_stored_round batch_rounds_to_fetch batch_pulses].
  exists resp, w1, lp, latest. repeat split; try assumption; try reflexivity.
  discriminate.
Qed.

(** Signing and submitting send no request to the beacon. *)
Lemma sign_and_submit_gets (env : Env) (current_block : Z) (b : Batch) (w : World) :
  gets (snd (sign_and_submit env current_block b w)) = gets w.
Proof.
  unfold sign_and_submit, bind, lift, submit_extrinsic, print.
  destruct (encode_pulses_payload _); [|reflexivity].
  destruct (node_submit env _ _) as [storage receipt].
  destruct (is_success receipt); reflexivity.
Qed.

(** ** The gate *)

(** C2: below the threshold the cycle returns at once and leaves the world
    as it found it, so nothing is fetched.  Otherwise, once the latest
    round is known and a stored round of 0 has been replaced by the latest
    round minus one, the cycle returns without a further fetch if the latest
    round is not above the stored one; else it asks for the rounds
    [last + 1 .. last + n], n = min(latest - last, 50), in ascending order
    and each once, stopping short of the whole range only by raising. *)
Theorem submission_gate (env : Env) (current_block : Z) (w : World) :
  let next_unsigned_at := value_or_0 (NextUnsignedAt (chain w)) in
  let last_stored_round := value_or_0 (LastStoredRound (chain w)) in
  (current_block < next_unsigned_at ->
   submit_new_pulses env current_block w = (Ok tt, w))
  /\ (next_unsigned_at <= current_block ->
      forall resp w1 latest_pulse latest_round,
        fetch_drand_latest env w = (Ok resp, w1) ->
        try_into_pulse resp = Ok latest_pulse ->
        py_int (round latest_pulse) = Ok latest_round ->
        let last :=
          if last_stored_round =? 0 then latest_round - 1 else last_stored_round in
        (latest_round <= last ->
         submit_new_pulses env current_block w
         = (Ok tt, snd (print "No new rounds to fetch." w1)))
        /\ (last < latest_round ->
            let rounds_to_fetch := Z.min (latest_round - last) 50 in
            let targets := inclusive_range (last + 1) (last + rounds_to_fetch) in
            len targets = rounds_to_fetch
            /\ exists k new,
                 (k <= List.length targets)%nat
                 /\ gets (snd (submit_new_pulses env current_block w))
                    = gets w1 ++ new
                 /\ fetch_calls new = map round_path (firstn k targets)
                 /\ ((k < List.length targets)%nat ->
                     raises (fst (submit_new_pulses env current_block w)))
                 /\ (forall ps w2,
                        answered env targets ps w1 w2 ->
                        fetch_calls new = map round_path targets))).
Proof.
  intros next_unsigned_at last_stored_round. split.
  - intros Hlt. unfold submit_new_pulses, bind.
    rewrite collect_below_threshold by exact Hlt. reflexivity.
  - intros Hge resp w1 lp latest Hf Hv Hi last.
    pose proof (collect_eligible env current_block w w1 resp lp latest Hge Hf Hv Hi)
      as Hc. cbv zeta in Hc.
    change (effective_last_stored_round (value_or_0 (LastStoredRound (chain w))) latest)
      with last in Hc.
    split.
    + intros Hle. unfold submit_new_pulses, bind. rewrite Hc.
      destruct (Z.leb_spec latest last); [reflexivity|lia].
    + intros Hgt rounds_to_fetch targets.
      assert (Hn : 1 <= rounds_to_fetch) by (unfold rounds_to_fetch; lia).
      split; [unfold targets; rewrite length_inclusive_range; lia|].
      destruct (Z.leb_spec latest last) as [|_]; [lia|].
      pose proof (fetch_rounds_loop_trace env targets [] w1) as Ht. cbv zeta in Ht.
      destruct Ht as (_ & _ & _ & k & new & Hk & Hg & Hcalls & Hraise).
      exists k, new. split; [exact Hk|].
      fold rounds_to_fetch targets in Hc. change MAX_PULSES_TO_FETCH with 50 in Hc.
      fold rounds_to_fetch targets in Hc.
      unfold submit_new_pulses, bind. rewrite Hc.
      destruct (fetch_rounds_loop env [] targets w1) as [[[|p ps]|e] w2] eqn:Hl;
        cbn [fst snd] in *.
      * repeat split; try assumption.
        -- intros Hlt. destruct (Hraise Hlt) as [e He]. discriminate.
        -- intros ps w3 Ha.
           destruct (Nat.lt_ge_cases k (List.length targets)) as [Hlt|Hge'].
           ++ destruct (Hraise Hlt) as [e He]. discriminate.
           ++ rewrite Hcalls, firstn_all2 by exact Hge'. reflexivity.
      * rewrite sign_and_submit_gets. repeat split; try assumption.
        -- intros Hlt. destruct (Hraise Hlt) as [e He]. discriminate.
        -- intros ps' w3 Ha.
           destruct (Nat.lt_ge_cases k (List.length targets)) as [Hlt|Hge'].
           ++ destruct (Hraise Hlt) as [e He]. discriminate.
           ++ rewrite Hcalls, firstn_all2 by exact Hge'. reflexivity.
      * repeat split; try assumption.
        -- intros _. exists e. reflexivity.
        -- intros ps w3 Ha.
           assert (Hok : fetch_rounds_loop env [] targets w1 = (Ok ([] ++ ps), w3))
             by (apply fetch_rounds_loop_ok_iff; eauto).
           congruence.
Qed.


Lemma submission_gate_witness :
  value_or_0 (NextUnsignedAt (chain start_world)) <= 5
  /\ fst (fetch_drand_latest honest_env start_world) = Ok (pulse_response 12)
  /\ 9 < 12
  /\ exists k new,
       (k <= 3)%nat
       /\ gets (snd (submit_new_pulses honest_env 5 start_world))
          = gets (snd (fetch_drand_latest honest_env start_world)) ++ new
       /\ fetch_calls new = map round_path (firstn k [10; 11; 12])
       /\ ((k < 3)%nat -> raises (fst (submit_new_pulses honest_env 5 start_world))).
Proof.
  assert (Hn : value_or_0 (NextUnsignedAt (chain start_world)) <= 5)
    by (vm_compute; discriminate).
  split; [exact Hn|]. split; [reflexivity|]. split; [lia|].
  destruct (submission_gate honest_env 5 start_world) as [_ H].
  destruct (H Hn (pulse_response 12)
              (snd (fetch_drand_latest honest_env start_world))
              (mkPulse (JInt 12) sample_randomness [xbe; xef]) 12
              eq_refl eq_refl eq_refl) as [_ H2].
  destruct (H2 ltac:(vm_compute; reflexivity)) as (_ & k & new & Hk & Hg & Hc & Hr & _).
  exists k, new. auto.
Defined.

(** ** A failed round *)

Lemma fetch_drand_by_round_frame (env : Env) (r : Z) (w : World) :
  chain (snd (fetch_drand_by_round env r w)) = chain w
  /\ extrinsics (snd (fetch_drand_by_round env r w)) = extrinsics w
  /\ stdout (snd (fetch_drand_by_round env r w)) = stdout w.
Proof.
  pose proof (fetch_from_any_endpoint_frame env (round_path r) w) as H.
  cbv zeta in H. tauto.
Qed.

(** C7: when the cycle is past the gate and the fetch or the validation of
    one of its target rounds fails, the rounds before it having gone
    through, the cycle raises that exception from inside the loop: it does
    not reach the lines that build, encode, sign and submit a payload, no
    extrinsic is submitted, nothing is printed, and the chain storage, the
    stored round with it, is what it was, for the next cycle to read. *)
Theorem failed_round_aborts_cycle
    (env : Env) (current_block : Z) (w w1 w2 w3 : World) (resp : json)
    (latest_pulse : Pulse) (latest : Z) (done rest : list Z) (r : Z)
    (ps : list Pulse) (e : exn) :
  value_or_0 (NextUnsignedAt (chain w)) <= current_block ->
  fetch_drand_latest env w = (Ok resp, w1) ->
  try_into_pulse resp = Ok latest_pulse ->
  py_int (round latest_pulse) = Ok latest ->
  let last :=
    effective_last_stored_round (value_or_0 (LastStoredRound (chain w))) latest in
  last < latest ->
  inclusive_range (last + 1) (last + Z.min (latest - last) 50) = done ++ r :: rest ->
  answered env done ps w1 w2 ->
  round_fails env r w2 e w3 ->
  submit_new_pulses env current_block w = (Err e, w3)
  /\ collect_new_pulses env current_block w = (Err e, w3)
  /\ extrinsics w3 = extrinsics w
  /\ stdout w3 = stdout w
  /\ chain w3 = chain w
  /\ value_or_0 (LastStoredRound (chain w3)) = value_or_0 (LastStoredRound (chain w)).
Proof.
  intros Hn Hf Hv Hi last Hgt Hsplit Hdone Hfail.
  assert (Hc : collect_new_pulses env current_block w = (Err e, w3)).
  { rewrite (collect_eligible env current_block w w1 resp latest_pulse latest Hn Hf Hv Hi).
    cbv zeta. fold last. destruct (Z.leb_spec latest last); [lia|].
    change MAX_PULSES_TO_FETCH with 50. rewrite Hsplit.
    rewrite (fetch_rounds_loop_fails env done rest r [] ([] ++ ps) w1 w2 w3 e);
      [reflexivity| |exact Hfail].
    apply fetch_rounds_loop_ok_iff. eauto. }
  assert (H1 : chain w1 = chain w /\ extrinsics w1 = extrinsics w /\ stdout w1 = stdout w).
  { pose proof (fetch_from_any_endpoint_frame env latest_path w) as H.
    cbv zeta in H. fold (fetch_drand_latest env w) in H. rewrite Hf in H.
    cbn [snd] in H. tauto. }
  assert (H2 : chain w2 = chain w1 /\ extrinsics w2 = extrinsics w1 /\ stdout w2 = stdout w1).
  { pose proof (fetch_rounds_loop_trace env done [] w1) as H. cbv zeta in H.
    assert (Hl : fetch_rounds_loop env [] done w1 = (Ok ([] ++ ps), w2))
      by (apply fetch_rounds_loop_ok_iff; eauto).
    rewrite Hl in H. cbn [snd] in H. tauto. }
  assert (H3 : chain w3 = chain w2 /\ extrinsics w3 = extrinsics w2 /\ stdout w3 = stdout w2).
  { pose proof (fetch_drand_by_round_frame env r w2) as H.
    destruct Hfail as [Hr|(resp' & Hr & _)]; rewrite Hr in H; exact H. }
  destruct H1 as (? & ? & ?), H2 as (? & ? & ?), H3 as (? & ? & ?).
  split; [unfold submit_new_pulses, bind; rewrite Hc; reflexivity|].
  split; [exact Hc|].
  repeat split; congruence.
Qed.

Lemma failed_round_aborts_cycle_witness :
  round_fails missing_round_env 11
    (snd (fetch_rounds_loop missing_round_env [] [10]
            (snd (fetch_drand_latest missing_round_env start_world))))
    NoEndpointAvailableError
    (snd (submit_new_pulses missing_round_env 5 start_world))
  /\ fst (submit_new_pulses missing_round_env 5 start_world)
     = Err NoEndpointAvailableError
  /\ extrinsics (snd (submit_new_pulses missing_round_env 5 start_world)) = []
  /\ chain (snd (submit_new_pulses missing_round_env 5 start_world))
     = chain start_world.
Proof.
  assert (Hfail : round_fails missing_round_env 11
            (snd (fetch_rounds_loop missing_round_env [] [10]
                    (snd (fetch_drand_latest missing_round_env start_world))))
            NoEndpointAvailableError
            (snd (submit_new_pulses missing_round_env 5 start_world)))
    by (left; vm_compute; reflexivity).
  split; [exact Hfail|].
  destruct (failed_round_aborts_cycle missing_round_env 5 start_world
              (snd (fetch_drand_latest missing_round_env start_world))
              (snd (fetch_rounds_loop missing_round_env [] [10]
                      (snd (fetch_drand_latest missing_round_env start_world))))
              (snd (submit_new_pulses missing_round_env 5 start_world))
              (pulse_response 12)
              (mkPulse (JInt 12) sample_randomness [xbe; xef]) 12
              [10] [12] 11
              [mkPulse (JInt 10) sample_randomness [xbe; xef]]
              NoEndpointAvailableError)
    as (Hs & _ & Hx & _ & Hc & _).
  - vm_compute. discriminate.
  - vm_compute. reflexivity.
  - reflexivity.
  - reflexivity.
  - vm_compute. reflexivity.
  - reflexivity.
  - exists (pulse_response 10),
      (snd (fetch_rounds_loop missing_round_env [] [10]
              (snd (fetch_drand_latest missing_round_env start_world)))).
    split; [vm_compute; reflexivity|]. split; reflexivity.
  - exact Hfail.
  - rewrite Hs. cbn [fst snd]. split; [reflexivity|]. split; assumption.
Defined.


(** ** The batch *)








(** ** The round of a response *)



(** * Further properties of the code *)

(** ** [encode_pulse] and the wire format *)

(** X1: [encode_pulse] returns exactly on the pulses whose round is an
    integer (or a bool) of 64 bits and whose two byte fields are shorter
    than 2^38, and then returns the round on 8 little-endian bytes followed
    by the randomness and the signature, each behind its compact length. *)
Theorem encode_pulse_layout (p : Pulse) (b : bytes) :
  encode_pulse p = Ok b <->
  (exists v, py_int (round p) = Ok v /\ 0 <= v < 2 ^ 64)
  /\ len (randomness p) < COMPACT_LIMIT
  /\ len (signature p) < COMPACT_LIMIT
  /\ b = le_bytes 8 (round_value p)
         ++ compact (len (randomness p)) ++ randomness p
         ++ compact (len (signature p)) ++ signature p.
Proof.
  unfold encode_pulse, rbind.
  destruct (py_to_bytes (round p) 8) as [r|e] eqn:Er.
  2:{ split; [discriminate|]. intros (Hv & _).
      assert (H : py_to_bytes (round p) 8 = Ok (le_bytes 8 (round_value p)))
        by (apply py_to_bytes_round; auto).
      congruence. }
  apply py_to_bytes_round in Er as [Hr ->].
  destruct (encode_compact_u32 (len (randomness p))) as [c1|e] eqn:E1.
  2:{ split; [discriminate|]. intros (_ & H1 & _).
      assert (H : encode_compact_u32 (len (randomness p)) = Ok (compact (len (randomness p))))
        by (apply encode_compact_u32_len; auto).
      congruence. }
  apply encode_compact_u32_len in E1 as [H1 ->].
  destruct (encode_compact_u32 (len (signature p))) as [c2|e] eqn:E2.
  2:{ split; [discriminate|]. intros (_ & _ & H2 & _).
      assert (H : encode_compact_u32 (len (signature p)) = Ok (compact (len (signature p))))
        by (apply encode_compact_u32_len; auto).
      congruence. }
  apply encode_compact_u32_len in E2 as [H2 ->].
  rewrite <- !app_assoc. split.
  - intros [= <-]. auto.
  - intros (_ & _ & _ & ->). reflexivity.
Qed.

Lemma encode_pulse_pulse_layout (p : Pulse) (b : bytes) :
  encode_pulse p = Ok b <-> encodable_pulse p /\ b = pulse_layout p.
Proof.
  rewrite encode_pulse_layout. unfold encodable_pulse, short_fields, pulse_layout.
  tauto.
Qed.

Lemma Forall2_encode_pulse (ps : list Pulse) (parts : list bytes) :
  Forall2 (fun p part => encode_pulse p = Ok part) ps parts <->
  Forall encodable_pulse ps /\ parts = map pulse_layout ps.
Proof.
  split.
  - induction 1 as [|p part ps parts Hp _ [IH1 IH2]]; [auto|].
    apply encode_pulse_pulse_layout in Hp as [Hp ->]. subst parts.
    split; [constructor; assumption|reflexivity].
  - intros [Hf ->]. induction Hf as [|p ps Hp _ IH]; constructor; [|exact IH].
    apply encode_pulse_pulse_layout. auto.
Qed.

(** X2: the payload encoder is [encode_pulse] put together: it returns
    exactly when the block number fits in 4 bytes, the count of pulses can
    be compact-encoded and [encode_pulse] returns on every pulse, and its
    bytes are then the block number, the compact count, the outputs of
    [encode_pulse] in the order of the pulses, the byte 0x01 and the public
    key. *)
Theorem encode_pulses_payload_by_encode_pulse (payload : PulsesPayload) (b : bytes) :
  encode_pulses_payload payload = Ok b <->
  exists head count parts,
    to_bytes (block_number payload) 4 = Ok head
    /\ encode_compact_u32 (len (pulses payload)) = Ok count
    /\ Forall2 (fun p part => encode_pulse p = Ok part) (pulses payload) parts
    /\ b = head ++ count ++ List.concat parts ++ [x01] ++ public payload.
Proof.
  rewrite encode_pulses_payload_spec. unfold payload_layout. split.
  - intros [(Hb & Hl & Hf) ->].
    exists (le_bytes 4 (block_number payload)), (compact (len (pulses payload))),
      (map pulse_layout (pulses payload)).
    split; [apply to_bytes_ok; exact Hb|].
    split; [apply encode_compact_u32_len; auto|].
    split; [apply Forall2_encode_pulse; auto|].
    now rewrite flat_map_concat_map.
  - intros (head & count & parts & Hh & Hc & Hf & ->).
    apply to_bytes_inv in Hh as [Hb ->].
    apply encode_compact_u32_len in Hc as [Hl ->].
    apply Forall2_encode_pulse in Hf as [Hf ->].
    split; [auto|]. now rewrite flat_map_concat_map.
Qed.

Lemma pulse_eq_by_fields (p q : Pulse) :
  (exists r, round p = JInt r) -> (exists r, round q = JInt r) ->
  round_value p = round_value q ->
  randomness p = randomness q -> signature p = signature q -> p = q.
Proof.
  destruct p as [rp ap sp], q as [rq aq sq]. unfold round_value. cbn [round randomness signature].
  intros [vp ->] [vq ->] Hr -> ->. now rewrite Hr.
Qed.

Lemma flat_map_pulse_layout_inj (ps : list Pulse) :
  forall qs x y,
    List.length ps = List.length qs ->
    Forall encodable_pulse ps -> Forall encodable_pulse qs ->
    Forall (fun p => exists r, round p = JInt r) ps ->
    Forall (fun p => exists r, round p = JInt r) qs ->
    flat_map pulse_layout ps ++ x = flat_map pulse_layout qs ++ y ->
    ps = qs /\ x = y.
Proof.
  induction ps as [|p ps IH]; intros [|q qs] x y Hl Hep Heq Hip Hiq H;
    try discriminate.
  - auto.
  - cbn [flat_map] in H. rewrite <- !app_assoc in H.
    inversion Hep; inversion Heq; inversion Hip; inversion Hiq; subst.
    apply pulse_layout_prefix_inj in H as (Hr & Ha & Hs & H); try assumption.
    injection Hl as Hl.
    destruct (IH qs x y Hl) as [-> ->]; try assumption.
    split; [|reflexivity]. f_equal. apply pulse_eq_by_fields; assumption.
Qed.

(** X3: on payloads whose rounds are integers the encoder is injective:
    two payloads with the same encoded bytes are the same payload, block
    number, every pulse and public key alike. *)
Theorem encode_pulses_payload_injective (p q : PulsesPayload) (b : bytes) :
  int_rounds p -> int_rounds q ->
  encode_pulses_payload p = Ok b ->
  encode_pulses_payload q = Ok b ->
  p = q.
Proof.
  intros Hip Hiq Hp Hq.
  apply encode_pulses_payload_spec in Hp as [(Hbp & Hlp & Hfp) ->].
  apply encode_pulses_payload_spec in Hq as [(Hbq & Hlq & Hfq) Hq].
  unfold payload_layout in Hq.
  apply app_inv_length in Hq as [Hbn Hq]; [|now rewrite !length_le_bytes].
  apply le_bytes_inj in Hbn;
    [|change (2 ^ (8 * Z.of_nat 4)) with (2 ^ 32); lia
     |change (2 ^ (8 * Z.of_nat 4)) with (2 ^ 32); lia].
  apply compact_prefix_inj in Hq as [Hlen Hq];
    try (split; [apply len_nonneg|assumption]).
  apply flat_map_pulse_layout_inj in Hq as [Hps Hq]; try assumption;
    [|apply len_inj; exact Hlen].
  apply app_inv_head in Hq.
  destruct p as [bp pp kp], q as [bq pq kq]. cbn [block_number pulses public] in *.
  congruence.
Qed.

Lemma encode_pulses_payload_injective_witness :
  int_rounds sample_payload
  /\ encode_pulses_payload sample_payload
     = encode_pulses_payload
         (mkPayload 7 (pulses sample_payload) (public sample_payload))
  /\ sample_payload = mkPayload 7 (pulses sample_payload) (public sample_payload).
Proof.
  assert (H : int_rounds sample_payload)
    by (repeat constructor; eexists; reflexivity).
  split; [exact H|]. split; [reflexivity|].
  exact (encode_pulses_payload_injective sample_payload
           (mkPayload 7 (pulses sample_payload) (public sample_payload))
           _ H H eq_refl eq_refl).
Defined.

(** X4: the compact encodings of the non-negative values are prefix-free:
    when the encoding of one value followed by some bytes equals the
    encoding of another followed by some bytes, the values are equal and so
    are the bytes that follow; in particular the encoder is injective on
    the non-negative values. *)
Theorem encode_compact_u32_prefix_free (a b : Z) (x y s t : bytes) :
  0 <= a -> 0 <= b ->
  encode_compact_u32 a = Ok x ->
  encode_compact_u32 b = Ok y ->
  x ++ s = y ++ t ->
  a = b /\ s = t.
Proof.
  intros Ha Hb Hx Hy H.
  assert (Hla : a < COMPACT_LIMIT).
  { destruct (Z.lt_ge_cases a COMPACT_LIMIT) as [|Hge]; [assumption|].
    rewrite encode_compact_u32_overflow in Hx by exact Hge. discriminate. }
  assert (Hlb : b < COMPACT_LIMIT).
  { destruct (Z.lt_ge_cases b COMPACT_LIMIT) as [|Hge]; [assumption|].
    rewrite encode_compact_u32_overflow in Hy by exact Hge. discriminate. }
  rewrite encode_compact_u32_ok in Hx, Hy by lia.
  injection Hx as <-. injection Hy as <-.
  apply compact_prefix_inj in H; [exact H| |]; lia.
Qed.

Lemma encode_compact_u32_prefix_free_witness :
  0 <= 63
  /\ encode_compact_u32 63 = Ok [xfc]
  /\ ([xfc] ++ [x01] = [xfc] ++ [x01] -> 63 = 63 /\ [x01] = [x01]).
Proof.
  split; [lia|]. split; [reflexivity|].
  intros H.
  exact (encode_compact_u32_prefix_free 63 63 [xfc] [xfc] [x01] [x01]
           ltac:(lia) ltac:(lia) eq_refl eq_refl H).
Defined.

(** X5: a negative value is not refused but encoded as the value it is
    congruent to modulo 64: the shift and the mask of the first branch keep
    only its six low bits, so -1 and 63 have the same byte. *)
Theorem encode_compact_u32_negative_aliases (value : Z) :
  value < 0 ->
  encode_compact_u32 value = encode_compact_u32 (value mod 64)
  /\ exists b, encode_compact_u32 value = Ok [b].
Proof.
  intros Hv.
  assert (Hm : 0 <= value mod 64 < 64) by (apply Z.mod_pos_bound; lia).
  rewrite encode_compact_u32_negative by exact Hv.
  split; [|eexists; reflexivity].
  unfold encode_compact_u32.
  destruct (Z.ltb_spec (value mod 64) 64) as [_|]; [|lia].
  assert (He : Z.land (Z.shiftl value 2) 255 = Z.land (Z.shiftl (value mod 64) 2) 255).
  { rewrite !Z.land_ones with (n := 8) by lia.
    rewrite !Z.shiftl_mul_pow2 by lia. change (2 ^ 2) with 4. change (2 ^ 8) with (4 * 64).
    rewrite !(Z.mul_comm _ 4), !Z.mul_mod_distr_l by lia.
    now rewrite Z.mod_mod by lia. }
  rewrite <- He. rewrite to_bytes_ok; [reflexivity|].
  rewrite Z.land_ones with (n := 8) by lia.
  change (2 ^ (8 * Z.of_nat 1)) with (2 ^ 8). apply Z.mod_pos_bound. lia.
Qed.

Lemma encode_compact_u32_negative_aliases_witness :
  -1 < 0
  /\ encode_compact_u32 (-1) = encode_compact_u32 63
  /\ exists b, encode_compact_u32 (-1) = Ok [b].
Proof.
  split; [lia|].
  exact (encode_compact_u32_negative_aliases (-1) ltac:(lia)).
Defined.

(** ** The exceptions of the validator *)

Lemma unhex_pairs_err (s : string) :
  forall e, unhex_pairs s = Err e ->
            e = binascii_Error "Non-hexadecimal digit found".
Proof.
  induction s as [| c | hi lo s IH] using string_pair_ind; intros e H;
    try discriminate.
  cbn [unhex_pairs] in H.
  destruct (hex_value hi); [|congruence].
  destruct (hex_value lo); [|congruence].
  unfold rbind in H. destruct (unhex_pairs s) as [t|e']; [discriminate|].
  injection H as <-. apply IH. reflexivity.
Qed.

(** What [unhexlify] raises is never the plain [Exception] of the length
    check. *)
Lemma unhexlify_err (x : json) (e : exn) :
  unhexlify x = Err e ->
  e = TypeError \/ e = ValueError \/ exists msg, e = binascii_Error msg.
Proof.
  destruct x as [| |?|s|?|?]; cbn [unhexlify]; try (intros [= <-]; auto).
  unfold unhexlify_str.
  destruct (negb (string_forallb is_ascii s)); [intros [= <-]; auto|].
  destruct (Nat.odd (String.length s)); [intros [= <-]; eauto|].
  intros H. apply unhex_pairs_err in H. eauto.
Qed.

(** X6: the 32-byte check comes last.  [try_into_pulse] raises
    [Exception("Randomness is not 32 bytes")] if and only if the three keys
    are present, randomness and signature both decode from hex, and the
    decoded randomness has a length other than 32; a response with a short
    randomness and a missing or malformed signature raises the error of the
    signature instead. *)
Theorem try_into_pulse_length_error (resp : json) :
  try_into_pulse resp = Err (Exception "Randomness is not 32 bytes") <->
  (exists r, field resp "round" = Some r)
  /\ (exists s rand, field resp "randomness" = Some (JStr s)
                     /\ unhexlify_str s = Ok rand /\ len rand <> 32)
  /\ (exists s sig, field resp "signature" = Some (JStr s)
                    /\ unhexlify_str s = Ok sig).
Proof.
  unfold try_into_pulse. rewrite !py_getitem_field.
  destruct (field resp "round") as [r|].
  2:{ split; [destruct resp; discriminate|intros [[r H] _]; discriminate]. }
  cbn [rbind].
  destruct (field resp "randomness") as [x1|].
  2:{ split; [destruct resp; discriminate|intros (_ & (s & rand & H & _) & _); discriminate]. }
  cbn [rbind].
  destruct (unhexlify x1) as [rand|e1] eqn:E1; cbn [rbind].
  2:{ split.
      - intros [= ->]. apply unhexlify_err in E1 as [H|[H|[msg H]]]; discriminate.
      - intros (_ & (s & rand & [= ->] & H & _) & _). cbn in E1. congruence. }
  destruct (field resp "signature") as [x2|].
  2:{ split; [destruct resp; discriminate|intros (_ & _ & (s & sig & H & _)); discriminate]. }
  cbn [rbind].
  destruct (unhexlify x2) as [sig|e2] eqn:E2; cbn [rbind].
  2:{ split.
      - intros [= ->]. apply unhexlify_err in E2 as [H|[H|[msg H]]]; discriminate.
      - intros (_ & _ & (s & sig & [= ->] & H)). cbn in E2. congruence. }
  destruct x1 as [| |?|s1|?|?]; try discriminate.
  destruct x2 as [| |?|s2|?|?]; try discriminate.
  cbn [unhexlify] in E1, E2.
  destruct (Z.eqb_spec (len rand) 32) as [Hl|Hl]; cbn [negb].
  - split; [discriminate|].
    intros (_ & (s & rand' & [= <-] & H & Hn) & _). congruence.
  - split; [|reflexivity]. intros _.
    split; [exists r; reflexivity|].
    split; [exists s1, rand; auto|exists s2, sig; auto].
Qed.

(** X7: the keys are read in the order round, randomness, signature, and
    the first one missing decides the exception: a dict without round raises
    [KeyError('round')] whatever else it holds; with round but without
    randomness, [KeyError('randomness')]; with round and a randomness that
    decodes, of any length, but without signature, [KeyError('signature')].
    A response that is not a dict raises [TypeError]. *)
Theorem try_into_pulse_missing_key (resp : json) :
  (forall items, resp = JObj items ->
     (field resp "round" = None ->
      try_into_pulse resp = Err (KeyError "round"))
     /\ (field resp "round" <> None ->
         field resp "randomness" = None ->
         try_into_pulse resp = Err (KeyError "randomness"))
     /\ (field resp "round" <> None ->
         (exists s rand, field resp "randomness" = Some (JStr s)
                         /\ unhexlify_str s = Ok rand) ->
         field resp "signature" = None ->
         try_into_pulse resp = Err (KeyError "signature")))
  /\ ((forall items, resp <> JObj items) ->
      try_into_pulse resp = Err TypeError).
Proof.
  split.
  - intros items ->. unfold try_into_pulse. rewrite !py_getitem_field.
    split; [|split].
    + intros ->. reflexivity.
    + intros Hr ->. destruct (field (JObj items) "round"); [reflexivity|contradiction].
    + intros Hr (s & rand & -> & Hs) ->.
      destruct (field (JObj items) "round"); [|contradiction].
      cbn [rbind unhexlify]. rewrite Hs. reflexivity.
  - intros H. destruct resp; try reflexivity. exfalso. eapply H. reflexivity.
Qed.

Lemma try_into_pulse_missing_key_witness :
  field (JObj [("round", JInt 1); ("randomness", JStr "00")]) "round" <> None
  /\ field (JObj [("round", JInt 1); ("randomness", JStr "00")]) "signature" = None
  /\ try_into_pulse (JObj [("round", JInt 1); ("randomness", JStr "00")])
     = Err (KeyError "signature")
  /\ try_into_pulse (JArr []) = Err TypeError.
Proof.
  assert (H1 : field (JObj [("round", JInt 1); ("randomness", JStr "00")]) "round"
               <> None) by discriminate.
  split; [exact H1|]. split; [reflexivity|]. split.
  - apply (proj1 (try_into_pulse_missing_key _) _ eq_refl).
    + exact H1.
    + exists "00", [x00]. split; reflexivity.
    + reflexivity.
  - apply (proj2 (try_into_pulse_missing_key (JArr []))). discriminate.
Defined.

(** ** The cost of a fetch *)

Lemma clock_after_get (env : Env) (e path : string) (w : World) :
  clock (after_get env e path w)
  = clock w + snd (requests_get env w (e ++ path)%string).
Proof.
  unfold after_get, http_get.
  destruct (requests_get env w (e ++ path)%string). reflexivity.
Qed.

Lemma all_fail_in_time_clock (env : Env) (d : Z) (path : string)
    (tried : list string) :
  forall w,
    all_fail_in_time env d path tried w ->
    clock w <= d ->
    clock (sent env path tried w) <= d.
Proof.
  induction tried as [|e tried IH]; intros w Hall Hw; [exact Hw|].
  destruct Hall as (_ & Hc & Hall). cbn [sent]. apply IH; assumption.
Qed.

(** X8: when no request takes longer than [B], a fetch ends at most
    [HTTP_FETCH_TIMEOUT + B] after it began, however many endpoints it
    tries: the deadline is looked at after each failure, so only the last
    request can run past it. *)
Theorem fetch_from_latency (env : Env) (es : list string) (path : string)
    (w : World) (B : Z) :
  0 <= B ->
  (forall w0 uri, snd (requests_get env w0 uri) <= B) ->
  clock (snd (fetch_from env es path w)) <= clock w + HTTP_FETCH_TIMEOUT + B.
Proof.
  intros HB Hreq.
  pose proof (fetch_loop_failover env (clock w + HTTP_FETCH_TIMEOUT) path es w) as Hrun.
  rewrite <- fetch_from_unfold in Hrun.
  destruct (fetch_from env es path w) as [res w']. cbn [fst snd] in *.
  assert (Hstart : clock w <= clock w + HTTP_FETCH_TIMEOUT)
    by (unfold HTTP_FETCH_TIMEOUT; lia).
  inversion Hrun as [tried e rest body Hes Hall _ Hres Hw
                    | tried e rest Hes Hall _ _ Hres Hw
                    | Hall Hres Hw].
  - rewrite sent_app. cbn [sent]. rewrite clock_after_get.
    pose proof (all_fail_in_time_clock env _ path tried w Hall Hstart).
    pose proof (Hreq (sent env path tried w) (e ++ path)%string). lia.
  - rewrite sent_app. cbn [sent]. rewrite clock_after_get.
    pose proof (all_fail_in_time_clock env _ path tried w Hall Hstart).
    pose proof (Hreq (sent env path tried w) (e ++ path)%string). lia.
  - pose proof (all_fail_in_time_clock env _ path es w Hall Hstart). lia.
Qed.

Lemma fetch_from_latency_witness :
  0 <= 1000
  /\ (forall w0 uri, snd (requests_get abc_env w0 uri) <= 1000)
  /\ clock (snd (fetch_from abc_env abc_endpoints "/latest" abc_world))
     <= clock abc_world + HTTP_FETCH_TIMEOUT + 1000.
Proof.
  assert (H : forall w0 uri, snd (requests_get abc_env w0 uri) <= 1000).
  { intros w0 uri. cbn [requests_get abc_env].
    repeat match goal with |- context [if ?c then _ else _] => destruct c end;
      cbn [snd]; lia. }
  split; [lia|]. split; [exact H|].
  exact (fetch_from_latency abc_env abc_endpoints "/latest" abc_world 1000
           ltac:(lia) H).
Defined.

Lemma fetch_from_any_endpoint_log (env : Env) (path : string) (w : World) :
  let w' := snd (fetch_from_any_endpoint env path w) in
  exists tried rest,
    DRAND_ENDPOINTS = tried ++ rest
    /\ gets w' = gets w ++ map (fun e => (e, path)) tried
    /\ (1 <= List.length tried <= 5)%nat
    /\ NoDup tried
    /\ chain w' = chain w
    /\ extrinsics w' = extrinsics w
    /\ stdout w' = stdout w.
Proof.
  cbv zeta. unfold fetch_from_any_endpoint.
  destruct (fetch_from_trace env DRAND_ENDPOINTS path w)
    as (tried & rest & Hes & Hne & ->).
  destruct (sent_frame env path tried w) as (Hg & Hc & Hx & Ho).
  exists tried, rest. split; [exact Hes|]. split; [exact Hg|].
  assert (Hnd : NoDup DRAND_ENDPOINTS).
  { unfold DRAND_ENDPOINTS.
    repeat (apply NoDup_cons; [intros H; cbn in H; intuition discriminate|]).
    apply NoDup_nil. }
  assert (Hlen : List.length DRAND_ENDPOINTS = 5%nat) by reflexivity.
  rewrite Hes in Hnd, Hlen. rewrite length_app in Hlen.
  split.
  - split; [|lia]. destruct tried; [exfalso; apply Hne; [discriminate|reflexivity]|cbn; lia].
  - split; [eapply NoDup_app_remove_r; exact Hnd|auto].
Qed.

(** X9: a fetch through [fetch_from_any_endpoint] sends at least one and
    at most five requests, all for the path it was given and each to a
    different endpoint of [DRAND_ENDPOINTS], in list order; it submits
    nothing, prints nothing and leaves the chain storage alone. *)
Theorem fetch_from_any_endpoint_requests (env : Env) (path : string) (w : World) :
  let w' := snd (fetch_from_any_endpoint env path w) in
  exists tried rest,
    DRAND_ENDPOINTS = tried ++ rest
    /\ gets w' = gets w ++ map (fun e => (e, path)) tried
    /\ (1 <= List.length tried <= 5)%nat
    /\ NoDup tried
    /\ chain w' = chain w
    /\ extrinsics w' = extrinsics w
    /\ stdout w' = stdout w.
Proof. exact (fetch_from_any_endpoint_log env path w). Qed.

(** ** The effects of a cycle *)

Lemma fetch_requests_bound (env : Env) (path : string) (w : World) :
  exists new,
    gets (snd (fetch_from_any_endpoint env path w)) = gets w ++ new
    /\ (List.length new <= 5)%nat.
Proof.
  destruct (fetch_from_any_endpoint_log env path w)
    as (tried & rest & _ & Hg & Hl & _).
  exists (map (fun e => (e, path)) tried). split; [exact Hg|].
  rewrite length_map. lia.
Qed.

Lemma fetch_rounds_loop_requests (env : Env) (rs : list Z) :
  forall acc w,
    exists new,
      gets (snd (fetch_rounds_loop env acc rs w)) = gets w ++ new
      /\ (List.length new <= 5 * List.length rs)%nat.
Proof.
  induction rs as [|r rs IH]; intros acc w.
  - exists []. cbn. rewrite app_nil_r. auto.
  - rewrite fetch_rounds_loop_cons.
    destruct (fetch_requests_bound env (round_path r) w) as (new & Hg & Hl).
    fold (fetch_drand_by_round env r w) in Hg.
    destruct (fetch_drand_by_round env r w) as [[resp|e] w1]; cbn [snd] in *.
    2:{ exists new. split; [exact Hg|]. cbn [List.length]. lia. }
    destruct (try_into_pulse resp) as [p|e]; cbn [snd].
    2:{ exists new. split; [exact Hg|]. cbn [List.length]. lia. }
    destruct (IH (acc ++ [p]) w1) as (new' & Hg' & Hl').
    exists (new ++ new'). rewrite Hg', Hg, app_assoc.
    split; [reflexivity|]. rewrite length_app. cbn [List.length]. lia.
Qed.

Lemma py_int_err (x : json) (e : exn) : py_int x = Err e -> e = TypeError.
Proof. destruct x; cbn; congruence. Qed.

(** The ways the lines 96-128 can go. *)
Lemma collect_cases (env : Env) (current_block : Z) (w : World) :
  (current_block < value_or_0 (NextUnsignedAt (chain w))
   /\ collect_new_pulses env current_block w = (Ok None, w))
  \/ (value_or_0 (NextUnsignedAt (chain w)) <= current_block
      /\ ((exists e w1,
              fetch_drand_latest env w = (Err e, w1)
              /\ collect_new_pulses env current_block w = (Err e, w1))
          \/ (exists resp w1 e,
                 fetch_drand_latest env w = (Ok resp, w1)
                 /\ try_into_pulse resp = Err e
                 /\ collect_new_pulses env current_block w = (Err e, w1))
          \/ (exists resp w1 latest_pulse,
                 fetch_drand_latest env w = (Ok resp, w1)
                 /\ try_into_pulse resp = Ok latest_pulse
                 /\ py_int (round latest_pulse) = Err TypeError
                 /\ collect_new_pulses env current_block w = (Err TypeError, w1))
          \/ (exists resp w1 latest_pulse latest,
                 fetch_drand_latest env w = (Ok resp, w1)
                 /\ try_into_pulse resp = Ok latest_pulse
                 /\ py_int (round latest_pulse) = Ok latest))).
Proof.
  destruct (Z.lt_ge_cases current_block (value_or_0 (NextUnsignedAt (chain w))))
    as [Hlt|Hge].
  { left. split; [exact Hlt|apply collect_below_threshold; exact Hlt]. }
  right. split; [exact Hge|].
  assert (Hstart :
    collect_new_pulses env current_block w =
      match fetch_drand_latest env w with
      | (Err e, w1) => (Err e, w1)
      | (Ok resp, w1) =>
          match try_into_pulse resp with
          | Err e => (Err e, w1)
          | Ok lp =>
              match py_int (round lp) with
              | Err e => (Err e, w1)
              | Ok _ => collect_new_pulses env current_block w
              end
          end
      end).
  { destruct (fetch_drand_latest env w) as [[resp|e] w1] eqn:Hf.
    2:{ unfold collect_new_pulses, bind at 1, substrate_query.
        destruct (Z.ltb_spec current_block (value_or_0 (NextUnsignedAt (chain w)))); [lia|].
        unfold bind at 1. unfold bind at 1. now rewrite Hf. }
    destruct (try_into_pulse resp) as [lp|e] eqn:Hv.
    2:{ unfold collect_new_pulses, bind at 1, substrate_query.
        destruct (Z.ltb_spec current_block (value_or_0 (NextUnsignedAt (chain w)))); [lia|].
        unfold bind at 1. unfold bind at 1. rewrite Hf.
        unfold bind at 1. unfold lift at 1. now rewrite Hv. }
    destruct (py_int (round lp)) as [latest|e] eqn:Hi; [reflexivity|].
    unfold collect_new_pulses, bind at 1, substrate_query.
    destruct (Z.ltb_spec current_block (value_or_0 (NextUnsignedAt (chain w)))); [lia|].
    unfold bind at 1. unfold bind at 1. rewrite Hf.
    unfold bind at 1. unfold lift at 1. rewrite Hv.
    unfold bind at 1.
    destruct (value_or_0 (LastStoredRound (chain w)) =? 0).
    - unfold bind at 1. unfold lift at 1. now rewrite Hi.
    - unfold ret at 1. unfold bind at 1. unfold lift at 1. now rewrite Hi. }
  destruct (fetch_drand_latest env w) as [[resp|e] w1] eqn:Hf.
  2:{ left. eauto. }
  destruct (try_into_pulse resp) as [lp|e] eqn:Hv.
  2:{ right. left. eauto 6. }
  destruct (py_int (round lp)) as [latest|e] eqn:Hi.
  - right. right. right. eauto 8.
  - right. right. left. pose proof (py_int_err _ _ Hi). subst e. eauto 8.
Qed.

Lemma print_frame (line : string) (w : World) :
  fst (print line w) = Ok tt
  /\ gets (snd (print line w)) = gets w
  /\ chain (snd (print line w)) = chain w
  /\ extrinsics (snd (print line w)) = extrinsics w
  /\ stdout (snd (print line w)) = stdout w ++ [line].
Proof. repeat split. Qed.

Lemma fetch_drand_latest_frame (env : Env) (w : World) :
  chain (snd (fetch_drand_latest env w)) = chain w
  /\ extrinsics (snd (fetch_drand_latest env w)) = extrinsics w
  /\ stdout (snd (fetch_drand_latest env w)) = stdout w
  /\ exists new,
       gets (snd (fetch_drand_latest env w)) = gets w ++ new
       /\ (List.length new <= 5)%nat.
Proof.
  destruct (fetch_from_any_endpoint_log env latest_path w)
    as (tried & rest & _ & Hg & Hl & _ & Hc & Hx & Ho).
  repeat (split; [assumption|]).
  exists (map (fun e => (e, latest_path)) tried). split; [exact Hg|].
  rewrite length_map. lia.
Qed.

(** Lines 96-128 submit nothing and leave the chain storage alone; they
    send at most 255 requests and print at most one line, and only when
    they return without a batch. *)
Lemma collect_frame (env : Env) (current_block : Z) (w : World) :
  let res := fst (collect_new_pulses env current_block w) in
  let w' := snd (collect_new_pulses env current_block w) in
  chain w' = chain w
  /\ extrinsics w' = extrinsics w
  /\ (exists new, gets w' = gets w ++ new /\ (List.length new <= 255)%nat)
  /\ (stdout w' = stdout w
      \/ (res = Ok None /\ exists line, stdout w' = stdout w ++ [line])).
Proof.
  cbv zeta.
  pose proof (fetch_drand_latest_frame env w) as (Hc1 & Hx1 & Ho1 & new1 & Hg1 & Hl1).
  destruct (collect_cases env current_block w)
    as [[_ ->]|[Hge [(e & w1 & Hf & ->)
                    |[(resp & w1 & e & Hf & _ & ->)
                     |[(resp & w1 & lp & Hf & _ & _ & ->)
                      |(resp & w1 & lp & latest & Hf & Hv & Hi)]]]]];
    cbn [fst snd].
  - repeat split; auto. exists []. rewrite app_nil_r. split; [reflexivity|cbn; lia].
  - rewrite Hf in *. cbn [snd] in *. repeat split; auto. exists new1. split; [auto|lia].
  - rewrite Hf in *. cbn [snd] in *. repeat split; auto. exists new1. split; [auto|lia].
  - rewrite Hf in *. cbn [snd] in *. repeat split; auto. exists new1. split; [auto|lia].
  - rewrite (collect_eligible env current_block w w1 resp lp latest Hge Hf Hv Hi).
    cbv zeta. rewrite Hf in *. cbn [snd] in *.
    set (last := effective_last_stored_round _ latest).
    destruct (Z.leb_spec latest last) as [Hle|Hgt];
      unfold print; cbn [fst snd chain extrinsics gets stdout].
    { split; [exact Hc1|]. split; [exact Hx1|].
      split; [exists new1; split; [exact Hg1|lia]|].
      right. split; [reflexivity|]. exists "No new rounds to fetch.".
      now rewrite <- Ho1. }
    set (n := Z.min (latest - last) MAX_PULSES_TO_FETCH).
    set (targets := inclusive_range (last + 1) (last + n)).
    assert (Hn : 1 <= n <= 50) by (unfold n, MAX_PULSES_TO_FETCH; lia).
    assert (Hlen : (List.length targets <= 50)%nat).
    { assert (H : len targets = n)
        by (unfold targets; rewrite length_inclusive_range; lia).
      unfold len in H. lia. }
    pose proof (fetch_rounds_loop_trace env targets [] w1) as Ht. cbv zeta in Ht.
    destruct Ht as (Hc2 & Hx2 & Ho2 & _).
    destruct (fetch_rounds_loop_requests env targets [] w1) as (new2 & Hg2 & Hl2).
    destruct (fetch_rounds_loop env [] targets w1) as [[[|p ps]|e] w2];
      unfold print; cbn [fst snd chain extrinsics gets stdout] in *.
    + split; [congruence|]. split; [congruence|].
      split; [exists (new1 ++ new2); rewrite Hg2, Hg1, app_assoc, length_app;
              split; [reflexivity|lia]|].
      right. split; [reflexivity|]. exists "No new pulses to submit.". congruence.
    + split; [congruence|]. split; [congruence|].
      split; [exists (new1 ++ new2); rewrite Hg2, Hg1, app_assoc, length_app;
              split; [reflexivity|lia]|].
      left. congruence.
    + split; [congruence|]. split; [congruence|].
      split; [exists (new1 ++ new2); rewrite Hg2, Hg1, app_assoc, length_app;
              split; [reflexivity|lia]|].
      left. congruence.
Qed.

(** What lines 130-173 do with a batch: raise what the encoder raises and
    change nothing, or submit one extrinsic and print one line. *)
Lemma sign_and_submit_cases (env : Env) (current_block : Z) (b : Batch) (w : World) :
  (exists e,
      encode_pulses_payload (payload_of env current_block (batch_pulses b)) = Err e
      /\ sign_and_submit env current_block b w = (Err e, w))
  \/ (exists encoded,
         encode_pulses_payload (payload_of env current_block (batch_pulses b))
         = Ok encoded
         /\ let call :=
              {| payload_block_number := current_block;
                 payload_pulses :=
                   map (fun p => {| call_round := round p;
                                    call_randomness := ("0x" ++ hex (randomness p))%string;
                                    call_signature := ("0x" ++ hex (signature p))%string |})
                       (batch_pulses b);
                 payload_public_Sr25519 := ("0x" ++ hex (keypair_public_key env))%string;
                 signature_Sr25519 :=
                   ("0x" ++ hex (keypair_sign env w encoded))%string |} in
            let receipt := snd (node_submit env call w) in
            let line :=
              if is_success receipt then
                ("Successfully submitted pulses from round "
                 ++ str (batch_last_stored_round b + 1) ++ " up to "
                 ++ str (batch_last_stored_round b + batch_rounds_to_fetch b))%string
              else ("Failed to submit: " ++ error_message receipt)%string in
            sign_and_submit env current_block b w
            = (Ok tt,
               {| clock := clock w;
                  gets := gets w;
                  chain := fst (node_submit env call w);
                  extrinsics := extrinsics w ++ [call];
                  stdout := stdout w ++ [line] |})).
Proof.
  unfold sign_and_submit, bind, lift, submit_extrinsic, print.
  destruct (encode_pulses_payload _) as [encoded|e]; [right|left; eauto].
  exists encoded. split; [reflexivity|]. cbv zeta.
  destruct (node_submit env _ w) as [storage receipt]. cbn [fst snd].
  destruct (is_success receipt); reflexivity.
Qed.

(** X10: a cycle sends at most 255 GET requests: at most five for the
    latest round and at most five for each of at most fifty rounds. *)
Theorem cycle_request_budget (env : Env) (current_block : Z) (w : World) :
  exists new,
    gets (snd (submit_new_pulses env current_block w)) = gets w ++ new
    /\ (List.length new <= 255)%nat.
Proof.
  pose proof (collect_frame env current_block w) as H. cbv zeta in H.
  destruct H as (_ & _ & (new & Hg & Hl) & _).
  exists new. split; [|exact Hl].
  unfold submit_new_pulses, bind.
  destruct (collect_new_pulses env current_block w) as [[[b|]|e] w1];
    cbn [snd] in *; try exact Hg.
  rewrite sign_and_submit_gets. exact Hg.
Qed.

(** X11: a cycle submits at most one extrinsic and prints at most one
    line.  Either it submits nothing and the chain storage is what it was,
    and then it prints a line only when it returns normally; or it returns
    normally after submitting exactly one extrinsic, with the storage the
    node leaves and one line printed.  So a cycle that raises, for whatever
    reason, has submitted nothing, printed nothing and left the storage
    alone. *)
Theorem cycle_submits_at_most_once (env : Env) (current_block : Z) (w : World) :
  let res := fst (submit_new_pulses env current_block w) in
  let w' := snd (submit_new_pulses env current_block w) in
  (extrinsics w' = extrinsics w
   /\ chain w' = chain w
   /\ (stdout w' = stdout w
       \/ (res = Ok tt /\ exists line, stdout w' = stdout w ++ [line])))
  \/ (res = Ok tt
      /\ exists call w1 line,
           extrinsics w' = extrinsics w ++ [call]
           /\ chain w' = fst (node_submit env call w1)
           /\ stdout w' = stdout w ++ [line]).
Proof.
  cbv zeta.
  pose proof (collect_frame env current_block w) as H. cbv zeta in H.
  destruct H as (Hc & Hx & _ & Ho).
  unfold submit_new_pulses, bind.
  destruct (collect_new_pulses env current_block w) as [[[b|]|e] w1];
    cbn [fst snd] in *.
  - destruct Ho as [Ho|[Hn _]]; [|discriminate].
    destruct (sign_and_submit_cases env current_block b w1)
      as [(e & _ & ->)|(encoded & _ & Hs)]; cbn [fst snd].
    + left. auto.
    + cbv zeta in Hs. rewrite Hs. cbn [fst snd extrinsics chain stdout].
      right. split; [reflexivity|]. rewrite Hx, Ho. eauto 6.
  - left. split; [exact Hx|]. split; [exact Hc|].
    destruct Ho as [Ho|[_ Hl]]; [left; exact Ho|right; split; [reflexivity|exact Hl]].
  - left. split; [exact Hx|]. split; [exact Hc|].
    destruct Ho as [Ho|[Hn _]]; [left; exact Ho|discriminate].
Qed.

(** The hex strings of lines 138-144 decode back to the bytes of the
    pulses. *)
Lemma pulses_for_call_decode (ps : list Pulse) :
  Forall2
    (fun p c =>
       call_round c = round p
       /\ (exists s, call_randomness c = ("0x" ++ s)%string
                     /\ unhexlify_str s = Ok (randomness p))
       /\ (exists s, call_signature c = ("0x" ++ s)%string
                     /\ unhexlify_str s = Ok (signature p)))
    ps
    (map (fun p => {| call_round := round p;
                      call_randomness := ("0x" ++ hex (randomness p))%string;
                      call_signature := ("0x" ++ hex (signature p))%string |})
         ps).
Proof.
  induction ps as [|p ps IH]; cbn [map]; constructor; [|exact IH].
  cbn [call_round call_randomness call_signature].
  split; [reflexivity|].
  split; eexists; (split; [reflexivity|apply unhexlify_str_hex]).
Qed.

(** X12: when the cycle has a batch and the encoder returns, it submits one
    extrinsic whose call carries what was encoded and signed: the block
    number of the cycle, the public key in hex, the signature, in hex, of
    exactly the encoded payload, and for each pulse of the batch, in order,
    its round and hex strings that decode back to its randomness and its
    signature.  The storage becomes what the node leaves, and the cycle
    returns normally whether the node accepts or not: it prints the range
    of rounds on success and the node's error message on rejection. *)
Theorem submitted_call_carries_signed_payload
    (env : Env) (current_block : Z) (w w1 : World) (b : Batch) (encoded : bytes) :
  collect_new_pulses env current_block w = (Ok (Some b), w1) ->
  encode_pulses_payload (payload_of env current_block (batch_pulses b)) = Ok encoded ->
  exists call w2,
    submit_new_pulses env current_block w = (Ok tt, w2)
    /\ extrinsics w2 = extrinsics w ++ [call]
    /\ chain w2 = fst (node_submit env call w1)
    /\ payload_block_number call = current_block
    /\ payload_public_Sr25519 call = ("0x" ++ hex (keypair_public_key env))%string
    /\ signature_Sr25519 call = ("0x" ++ hex (keypair_sign env w1 encoded))%string
    /\ Forall2
         (fun p c =>
            call_round c = round p
            /\ (exists s, call_randomness c = ("0x" ++ s)%string
                          /\ unhexlify_str s = Ok (randomness p))
            /\ (exists s, call_signature c = ("0x" ++ s)%string
                          /\ unhexlify_str s = Ok (signature p)))
         (batch_pulses b) (payload_pulses call)
    /\ stdout w2
       = stdout w
         ++ [ if is_success (snd (node_submit env call w1)) then
                ("Successfully submitted pulses from round "
                 ++ str (batch_last_stored_round b + 1) ++ " up to "
                 ++ str (batch_last_stored_round b + batch_rounds_to_fetch b))%string
              else
                ("Failed to submit: "
                 ++ error_message (snd (node_submit env call w1)))%string ].
Proof.
  intros Hcol Henc.
  pose proof (collect_frame env current_block w) as H. cbv zeta in H.
  rewrite Hcol in H. cbn [fst snd] in H.
  destruct H as (_ & Hx & _ & [Ho|[Hn _]]); [|discriminate].
  destruct (sign_and_submit_cases env current_block b w1)
    as [(e & He & _)|(encoded' & He & Hs)]; [congruence|].
  assert (encoded' = encoded) by congruence. subst encoded'.
  cbv zeta in Hs.
  eexists. eexists.
  split; [unfold submit_new_pulses, bind; rewrite Hcol; exact Hs|].
  cbn [extrinsics chain stdout payload_block_number payload_public_Sr25519
       signature_Sr25519 payload_pulses].
  rewrite Hx, Ho.
  repeat (split; [reflexivity|]).
  split; [|reflexivity].
  apply pulses_for_call_decode.
Qed.

Lemma submitted_call_carries_signed_payload_witness :
  collect_new_pulses honest_env 5 start_world
  = (Ok (Some honest_batch), snd (collect_new_pulses honest_env 5 start_world))
  /\ (exists encoded,
         encode_pulses_payload (payload_of honest_env 5 (batch_pulses honest_batch))
         = Ok encoded)
  /\ exists call w2,
       submit_new_pulses honest_env 5 start_world = (Ok tt, w2)
       /\ extrinsics w2 = [call]
       /\ payload_block_number call = 5
       /\ signature_Sr25519 call = "0x05".
Proof.
  assert (H : collect_new_pulses honest_env 5 start_world
              = (Ok (Some honest_batch),
                 snd (collect_new_pulses honest_env 5 start_world)))
    by (vm_compute; reflexivity).
  split; [exact H|].
  assert (He : encode_pulses_payload (payload_of honest_env 5 (batch_pulses honest_batch))
               = Ok (match encode_pulses_payload
                             (payload_of honest_env 5 (batch_pulses honest_batch)) with
                     | Ok x => x | Err _ => [] end))
    by (vm_compute; reflexivity).
  split; [eexists; exact He|].
  destruct (submitted_call_carries_signed_payload honest_env 5 start_world _
              honest_batch _ H He)
    as (call & w2 & Hs & Hx & _ & Hb & _ & Hsig & _ & _).
  exists call, w2. split; [exact Hs|]. split; [exact Hx|]. split; [exact Hb|].
  exact Hsig.
Defined.

(** X13: when the cycle has a batch and the encoder raises (a round that
    is not an integer of 64 bits, a block number beyond 32 bits, a field
    too long), the cycle raises that exception after all its fetches and
    submits nothing: the world is the one the fetches left. *)
Theorem encoder_failure_aborts_cycle
    (env : Env) (current_block : Z) (w w1 : World) (b : Batch) (e : exn) :
  collect_new_pulses env current_block w = (Ok (Some b), w1) ->
  encode_pulses_payload (payload_of env current_block (batch_pulses b)) = Err e ->
  submit_new_pulses env current_block w = (Err e, w1)
  /\ extrinsics w1 = extrinsics w
  /\ chain w1 = chain w
  /\ stdout w1 = stdout w.
Proof.
  intros Hcol Henc.
  pose proof (collect_frame env current_block w) as H. cbv zeta in H.
  rewrite Hcol in H. cbn [fst snd] in H.
  destruct H as (Hc & Hx & _ & [Ho|[Hn _]]); [|discriminate].
  split; [|auto].
  unfold submit_new_pulses, bind. rewrite Hcol.
  destruct (sign_and_submit_cases env current_block b w1)
    as [(e' & He & ->)|(encoded & He & _)]; congruence.
Qed.

Lemma encoder_failure_aborts_cycle_witness :
  collect_new_pulses text_round_env 5 start_world
  = (Ok (Some (mkBatch 9 1 [mkPulse (JStr "10") sample_randomness [xbe; xef]])),
     snd (collect_new_pulses text_round_env 5 start_world))
  /\ encode_pulses_payload
       (payload_of text_round_env 5 [mkPulse (JStr "10") sample_randomness [xbe; xef]])
     = Err AttributeError
  /\ fst (submit_new_pulses text_round_env 5 start_world) = Err AttributeError
  /\ extrinsics (snd (submit_new_pulses text_round_env 5 start_world)) = [].
Proof.
  assert (H : collect_new_pulses text_round_env 5 start_world
              = (Ok (Some (mkBatch 9 1 [mkPulse (JStr "10") sample_randomness [xbe; xef]])),
                 snd (collect_new_pulses text_round_env 5 start_world)))
    by (vm_compute; reflexivity).
  assert (He : encode_pulses_payload
                 (payload_of text_round_env 5
                    (batch_pulses
                       (mkBatch 9 1 [mkPulse (JStr "10") sample_randomness [xbe; xef]])))
               = Err AttributeError) by reflexivity.
  split; [exact H|]. split; [exact He|].
  destruct (encoder_failure_aborts_cycle text_round_env 5 start_world _ _ _ H He)
    as (Hs & Hx & _).
  rewrite Hs. cbn [fst snd]. split; [reflexivity|exact Hx].
Defined.

(** ** The batch and the encoder *)

Lemma answered_randomness (env : Env) (rs : list Z) :
  forall ps w w',
    answered env rs ps w w' ->
    Forall (fun p => len (randomness p) = 32) ps.
Proof.
  induction rs as [|r rs IH]; intros [|p ps] w w' H; try contradiction;
    [constructor|].
  destruct H as (resp & w1 & _ & Hv & H).
  constructor; [|eapply IH; exact H].
  apply try_into_pulse_ok_iff in Hv. apply Hv.
Qed.

(** X14: every pulse of a batch the cycle collects has exactly 32 bytes of
    randomness.  With the count of pulses at most 50, the encoder therefore
    returns on the payload of the batch exactly when the block number fits
    in 32 bits, every round is an integer (or bool) that fits in 64 bits,
    and every signature is shorter than 2^38 bytes. *)
Theorem collected_batch_encodes
    (env : Env) (current_block : Z) (w w1 : World) (b : Batch) :
  collect_new_pulses env current_block w = (Ok (Some b), w1) ->
  Forall (fun p => len (randomness p) = 32) (batch_pulses b)
  /\ ((exists encoded,
          encode_pulses_payload (payload_of env current_block (batch_pulses b))
          = Ok encoded)
      <-> 0 <= current_block < 2 ^ 32
          /\ Forall (fun p => (exists v, py_int (round p) = Ok v /\ 0 <= v < 2 ^ 64)
                              /\ len (signature p) < COMPACT_LIMIT)
                    (batch_pulses b)).
Proof.
  intros H.
  apply collect_some_inv in H
    as (resp & w0 & lp & latest & _ & _ & _ & _ & _ & Hgt & Hcount & _ & Hl).
  apply fetch_rounds_loop_ok_iff in Hl as (fetched & Hps & Ha).
  cbn [app] in Hps. subst fetched.
  pose proof (answered_randomness env _ _ w0 w1 Ha) as Hrand.
  assert (Hlen : len (batch_pulses b) <= 50).
  { unfold len. rewrite (answered_length env _ _ w0 w1 Ha).
    match goal with |- Z.of_nat (List.length ?t) <= _ => fold (len t) end.
    unfold MAX_PULSES_TO_FETCH in Hcount.
    rewrite length_inclusive_range; lia. }
  split; [exact Hrand|].
  split.
  - intros [encoded He]. apply encode_pulses_payload_spec in He as [(Hb & _ & Hf) _].
    cbn [block_number pulses payload_of] in *. split; [exact Hb|].
    rewrite Forall_forall in *. intros p Hp. destruct (Hf p Hp) as [Hr [_ Hs]]. auto.
  - intros [Hb Hf]. exists (payload_layout (payload_of env current_block (batch_pulses b))).
    apply encode_pulses_payload_spec. split; [|reflexivity].
    cbn [block_number pulses payload_of]. split; [exact Hb|].
    split; [unfold COMPACT_LIMIT; lia|].
    rewrite Forall_forall in *. intros p Hp. destruct (Hf p Hp) as [Hr Hs].
    split; [exact Hr|]. split; [|exact Hs].
    rewrite (Hrand p Hp). reflexivity.
Qed.

Lemma collected_batch_encodes_witness :
  collect_new_pulses honest_env 5 start_world
  = (Ok (Some honest_batch), snd (collect_new_pulses honest_env 5 start_world))
  /\ Forall (fun p => len (randomness p) = 32) (batch_pulses honest_batch).
Proof.
  assert (H : collect_new_pulses honest_env 5 start_world
              = (Ok (Some honest_batch),
                 snd (collect_new_pulses honest_env 5 start_world)))
    by (vm_compute; reflexivity).
  split; [exact H|].
  exact (proj1 (collected_batch_encodes honest_env 5 start_world _ honest_batch H)).
Defined.

(** ** The latest round *)

(** X15: when the latest response validates but its round is not a number
    (a string, null, a list or an object), the cycle raises [TypeError]
    right after the latest fetch: no round is fetched, nothing is submitted
    or printed, and the storage is left alone. *)
Theorem latest_round_not_integer
    (env : Env) (current_block : Z) (w w1 : World) (resp : json)
    (latest_pulse : Pulse) :
  value_or_0 (NextUnsignedAt (chain w)) <= current_block ->
  fetch_drand_latest env w = (Ok resp, w1) ->
  try_into_pulse resp = Ok latest_pulse ->
  (forall z, round latest_pulse <> JInt z) ->
  (forall b, round latest_pulse <> JBool b) ->
  submit_new_pulses env current_block w = (Err TypeError, w1)
  /\ extrinsics w1 = extrinsics w
  /\ chain w1 = chain w
  /\ stdout w1 = stdout w.
Proof.
  intros Hge Hf Hv Hz Hb.
  assert (Hi : py_int (round latest_pulse) = Err TypeError).
  { destruct (round latest_pulse) as [|x|z|?|?|?]; try reflexivity.
    - exfalso. eapply Hb. reflexivity.
    - exfalso. eapply Hz. reflexivity. }
  assert (Hc : collect_new_pulses env current_block w = (Err TypeError, w1)).
  { destruct (collect_cases env current_block w)
      as [[Hlt _]|[_ [(e & w0 & Hf' & _)
                     |[(resp' & w0 & e & Hf' & Hv' & _)
                      |[(resp' & w0 & lp & Hf' & Hv' & _ & Hc)
                       |(resp' & w0 & lp & latest & Hf' & Hv' & Hi')]]]]];
      try lia; try congruence. }
  split; [unfold submit_new_pulses, bind; rewrite Hc; reflexivity|].
  pose proof (fetch_drand_latest_frame env w) as (H1 & H2 & H3 & _).
  rewrite Hf in *. cbn [snd] in *. auto.
Qed.

Lemma latest_round_not_integer_witness :
  value_or_0 (NextUnsignedAt (chain start_world)) <= 5
  /\ fst (fetch_drand_latest text_latest_env start_world)
     = Ok (beacon_response (JStr "12") sample_randomness [xbe; xef])
  /\ submit_new_pulses text_latest_env 5 start_world
     = (Err TypeError, snd (fetch_drand_latest text_latest_env start_world)).
Proof.
  assert (Hn : value_or_0 (NextUnsignedAt (chain start_world)) <= 5)
    by (vm_compute; discriminate).
  split; [exact Hn|]. split; [reflexivity|].
  apply (latest_round_not_integer text_latest_env 5 start_world
           (snd (fetch_drand_latest text_latest_env start_world))
           (beacon_response (JStr "12") sample_randomness [xbe; xef])
           (mkPulse (JStr "12") sample_randomness [xbe; xef])).
  - exact Hn.
  - reflexivity.
  - reflexivity.
  - discriminate.
  - discriminate.
Defined.

Lemma inclusive_range_single (r : Z) : inclusive_range r r = [r].
Proof.
  unfold inclusive_range. replace (r - r + 1) with 1 by lia.
  change (Z.to_nat 1) with 1%nat. cbn [seq map].
  change (Z.of_nat 0) with 0. now rewrite Z.add_0_r.
Qed.

Lemma in_inclusive_range (first last r : Z) :
  In r (inclusive_range first last) -> first <= r <= last.
Proof.
  unfold inclusive_range. intros H. apply in_map_iff in H as (i & <- & Hi).
  apply in_seq in Hi. lia.
Qed.

(** X16: with no stored round (a storage value of 0 or none) the cycle
    fetches exactly one round by number, the latest one, which it has just
    fetched as latest; a batch that comes out of it holds one pulse and
    counts from the round before the latest. *)
Theorem first_run_fetches_latest_round
    (env : Env) (current_block : Z) (w w1 : World) (resp : json)
    (latest_pulse : Pulse) (latest : Z) :
  value_or_0 (LastStoredRound (chain w)) = 0 ->
  value_or_0 (NextUnsignedAt (chain w)) <= current_block ->
  fetch_drand_latest env w = (Ok resp, w1) ->
  try_into_pulse resp = Ok latest_pulse ->
  py_int (round latest_pulse) = Ok latest ->
  (exists new,
      gets (snd (submit_new_pulses env current_block w)) = gets w1 ++ new
      /\ fetch_calls new = [round_path latest])
  /\ (forall b w2,
         collect_new_pulses env current_block w = (Ok (Some b), w2) ->
         batch_last_stored_round b = latest - 1
         /\ batch_rounds_to_fetch b = 1
         /\ exists p, batch_pulses b = [p]).
Proof.
  intros H0 Hge Hf Hv Hi.
  pose proof (collect_eligible env current_block w w1 resp latest_pulse latest
                Hge Hf Hv Hi) as Hc.
  cbv zeta in Hc. unfold effective_last_stored_round in Hc.
  rewrite H0 in Hc. cbn [Z.eqb] in Hc.
  destruct (Z.leb_spec latest (latest - 1)) as [|_]; [lia|].
  replace (Z.min (latest - (latest - 1)) MAX_PULSES_TO_FETCH) with 1 in Hc
    by (unfold MAX_PULSES_TO_FETCH; lia).
  replace (latest - 1 + 1) with latest in Hc by lia.
  rewrite inclusive_range_single, fetch_rounds_loop_cons in Hc.
  pose proof (fetch_from_any_endpoint_frame env (round_path latest) w1) as Hfr.
  cbv zeta in Hfr. fold (fetch_drand_by_round env latest w1) in Hfr.
  destruct Hfr as (_ & _ & _ & new & Hg & Hn).
  destruct (fetch_drand_by_round env latest w1) as [[resp'|e] w2]; cbn [snd] in *.
  2:{ split.
      - exists new. unfold submit_new_pulses, bind. rewrite Hc. auto.
      - intros b w3 Hb. congruence. }
  destruct (try_into_pulse resp') as [p|e].
  2:{ split.
      - exists new. unfold submit_new_pulses, bind. rewrite Hc. auto.
      - intros b w3 Hb. congruence. }
  cbn [fetch_rounds_loop ret app] in Hc. split.
  - exists new. unfold submit_new_pulses, bind. rewrite Hc.
    rewrite sign_and_submit_gets. auto.
  - intros b w3 Hb. rewrite Hc in Hb. injection Hb as <- <-.
    cbn. eauto.
Qed.

Lemma first_run_fetches_latest_round_witness :
  value_or_0 (LastStoredRound (chain first_run_world)) = 0
  /\ value_or_0 (NextUnsignedAt (chain first_run_world)) <= 5
  /\ fst (fetch_drand_latest first_run_env first_run_world) = Ok (pulse_response 42)
  /\ exists new,
       gets (snd (submit_new_pulses first_run_env 5 first_run_world))
       = gets (snd (fetch_drand_latest first_run_env first_run_world)) ++ new
       /\ fetch_calls new = [round_path 42].
Proof.
  assert (H0 : value_or_0 (LastStoredRound (chain first_run_world)) = 0) by reflexivity.
  assert (Hn : value_or_0 (NextUnsignedAt (chain first_run_world)) <= 5)
    by (vm_compute; discriminate).
  split; [exact H0|]. split; [exact Hn|]. split; [reflexivity|].
  exact (proj1 (first_run_fetches_latest_round first_run_env 5 first_run_world
                  (snd (fetch_drand_latest first_run_env first_run_world))
                  (pulse_response 42) (sample_pulse 42) 42
                  H0 Hn eq_refl eq_refl eq_refl)).
Defined.

Lemma in_firstn {A} (k : nat) (l : list A) (x : A) :
  In x (firstn k l) -> In x l.
Proof.
  intros H. rewrite <- (firstn_skipn k l). apply in_or_app. left. exact H.
Qed.

(** X17: every round the cycle asks for by number lies in the gap: it is
    above the stored round (the round before the latest when none is
    stored), at most the latest round, and at most 50 above the stored
    round.  The cycle never asks for a round that is already stored or one
    the beacon has not reached. *)
Theorem requested_rounds_in_gap
    (env : Env) (current_block : Z) (w w1 : World) (resp : json)
    (latest_pulse : Pulse) (latest : Z) :
  value_or_0 (NextUnsignedAt (chain w)) <= current_block ->
  fetch_drand_latest env w = (Ok resp, w1) ->
  try_into_pulse resp = Ok latest_pulse ->
  py_int (round latest_pulse) = Ok latest ->
  let last :=
    effective_last_stored_round (value_or_0 (LastStoredRound (chain w))) latest in
  exists rs new,
    gets (snd (submit_new_pulses env current_block w)) = gets w1 ++ new
    /\ fetch_calls new = map round_path rs
    /\ Forall (fun r => last < r <= latest /\ r <= last + 50) rs.
Proof.
  intros Hge Hf Hv Hi last.
  pose proof (collect_eligible env current_block w w1 resp latest_pulse latest
                Hge Hf Hv Hi) as Hc.
  cbv zeta in Hc. fold last in Hc.
  unfold submit_new_pulses, bind. rewrite Hc.
  destruct (Z.leb_spec latest last) as [Hle|Hgt].
  { exists [], []. cbn. rewrite app_nil_r. auto. }
  set (n := Z.min (latest - last) MAX_PULSES_TO_FETCH) in *.
  set (targets := inclusive_range (last + 1) (last + n)) in *.
  pose proof (fetch_rounds_loop_trace env targets [] w1) as Ht. cbv zeta in Ht.
  destruct Ht as (_ & _ & _ & k & new & _ & Hg & Hcalls & _).
  exists (firstn k targets), new.
  split.
  - destruct (fetch_rounds_loop env [] targets w1) as [[[|p ps]|e] w2];
      cbn [fst snd] in *; try exact Hg.
    rewrite sign_and_submit_gets. exact Hg.
  - split; [exact Hcalls|].
    apply Forall_forall. intros r Hr.
    apply in_firstn, in_inclusive_range in Hr.
    unfold n, MAX_PULSES_TO_FETCH in Hr. lia.
Qed.

Lemma requested_rounds_in_gap_witness :
  value_or_0 (NextUnsignedAt (chain start_world)) <= 5
  /\ fst (fetch_drand_latest honest_env start_world) = Ok (pulse_response 12)
  /\ exists rs new,
       gets (snd (submit_new_pulses honest_env 5 start_world))
       = gets (snd (fetch_drand_latest honest_env start_world)) ++ new
       /\ fetch_calls new = map round_path rs
       /\ Forall (fun r => 9 < r <= 12 /\ r <= 9 + 50) rs.
Proof.
  assert (Hn : value_or_0 (NextUnsignedAt (chain start_world)) <= 5)
    by (vm_compute; discriminate).
  split; [exact Hn|]. split; [reflexivity|].
  exact (requested_rounds_in_gap honest_env 5 start_world
           (snd (fetch_drand_latest honest_env start_world))
           (pulse_response 12) (sample_pulse 12) 12
           Hn eq_refl eq_refl eq_refl).
Defined.

(** ** The paths of the fetches *)

Lemma append_inv_head (p x y : string) :
  (p ++ x)%string = (p ++ y)%string -> x = y.
Proof.
  induction p as [|c p IH]; cbn; [auto|]. intros [= H]. apply IH. exact H.
Qed.

Lemma to_int_not_nil (n : Z) :
  Z.to_int n <> Decimal.Pos Decimal.Nil /\ Z.to_int n <> Decimal.Neg Decimal.Nil.
Proof.
  destruct n as [|p|p]; cbn; split; try discriminate;
    intros [= H]; exact (Unsigned.to_uint_nonnil p H).
Qed.

Lemma int_of_string_str (n : Z) :
  NilZero.int_of_string (str n) = Some (Z.to_int n).
Proof.
  unfold str. destruct (to_int_not_nil n). now apply NilZero.isi.
Qed.

(** X18: the path of a round is the chain hash, [/public/] and the round
    in decimal: two rounds with the same path are the same round, and no
    round has the path of the latest round.  So the fetches of a cycle
    never ask two different rounds under one URI. *)
Theorem round_path_injective (a b : Z) :
  (round_path a = round_path b -> a = b)
  /\ round_path a <> latest_path
  /\ round_path a = ("/" ++ CHAIN_HASH ++ "/public/" ++ str a)%string.
Proof.
  split; [|split; [|reflexivity]].
  - unfold round_path. intros H.
    do 3 apply append_inv_head in H.
    apply (f_equal NilZero.int_of_string) in H.
    rewrite !int_of_string_str in H. injection H as H.
    rewrite <- (DecimalZ.of_to a), <- (DecimalZ.of_to b). now rewrite H.
  - unfold round_path, latest_path. intros H.
    apply (append_inv_head "/" _ (CHAIN_HASH ++ "/public/latest")) in H.
    apply (append_inv_head CHAIN_HASH _ "/public/latest") in H.
    apply (append_inv_head "/public/" (str a) "latest") in H.
    apply (f_equal NilZero.int_of_string) in H.
    rewrite int_of_string_str in H. discriminate H.
Qed.

Lemma round_path_injective_witness :
  round_path 10 = round_path 10 /\ 10 = 10.
Proof.
  split; [reflexivity|].
  exact (proj1 (round_path_injective 10 10) eq_refl).
Defined.
